(** * src-d engine: image tag resolution, readiness wait and stdio attach

    A shallow embedding of two pieces of the repository:

    - [docker/dockerhub.go]: [GetCompatibleTag], [getCompatibleTag],
      [getCompatibleTagForPre] and [getTags];
    - the [sql] command: [sqlCmd.Execute], [ensureConnReady], [pingDB] and
      [attachStdio].

    What these functions call outside the repository (the registry over
    HTTP, the JSON decoder, the terminal, the engine client, the clock) is
    a parameter of the model, gathered in the records [docker.Env],
    [cmd.Timeline], [cmd.Client], [cmd.Term] and [cmd.World].

    Go values are modelled as follows.  A [uint64] is an [N] and every
    addition the code performs on one is reduced modulo [2^64]; an [int] or
    [int64] is a [Z]; a [string] is a [string] (a sequence of bytes); a Go
    [error] is an [option error], [None] being [nil]; a function with several
    results returns a tuple. *)

From Stdlib Require Import ZArith NArith List String Ascii Bool Lia DecimalString.
Import ListNotations.

Open Scope string_scope.

(** ** Errors *)

(** [New msg] is what [errors.New] and [fmt.Errorf] build, [Wrap cause msg] is
    [errors.Wrap(cause, msg)] of github.com/pkg/errors. *)
Inductive error : Type :=
| New (msg : string)
| Wrap (cause : error) (msg : string).

(** [%d] of a signed integer. *)
Definition itoa (z : Z) : string := NilEmpty.string_of_int (Z.to_int z).

(** [strconv.AppendUint(_, n, 10)]. *)
Definition utoa (n : N) : string := NilEmpty.string_of_uint (N.to_uint n).

(** Addition on [uint64]. *)
Definition uint64_add (a b : N) : N := ((a + b) mod 2 ^ 64)%N.

(** ** The functions of Go's [strings] package that the code calls

    On byte strings; [TrimSpace] trims the ASCII white space characters. *)
Module strings.

Definition isSpace (c : ascii) : bool :=
  let n := nat_of_ascii c in
  ((9 <=? n)%nat && (n <=? 13)%nat) || (n =? 32)%nat.

Fixpoint trimLeft (s : string) : string :=
  match s with
  | String.String c s' => if isSpace c then trimLeft s' else s
  | EmptyString => EmptyString
  end.

Fixpoint trimRight (s : string) : string :=
  match s with
  | String.String c s' =>
      match trimRight s' with
      | EmptyString => if isSpace c then EmptyString else String.String c EmptyString
      | t => String.String c t
      end
  | EmptyString => EmptyString
  end.

Definition TrimSpace (s : string) : string := trimRight (trimLeft s).

Definition TrimPrefix (s : string) (c : ascii) : string :=
  match s with
  | String.String d s' => if Ascii.eqb c d then s' else s
  | EmptyString => s
  end.

(** [cut c s]: the text before and after the first [c] of [s]. *)
Fixpoint cut (c : ascii) (s : string) : option (string * string) :=
  match s with
  | EmptyString => None
  | String.String d s' =>
      if Ascii.eqb c d then Some (EmptyString, s')
      else match cut c s' with
           | Some (a, b) => Some (String.String d a, b)
           | None => None
           end
  end.

(** [strings.Split(s, ".")]. *)
Fixpoint Split (c : ascii) (s : string) : list string :=
  match s with
  | EmptyString => [EmptyString]
  | String.String d s' =>
      if Ascii.eqb c d then EmptyString :: Split c s'
      else match Split c s' with
           | p :: ps => String.String d p :: ps
           | [] => [String.String d EmptyString]
           end
  end.

(** [strings.SplitN(s, ".", n)] for [n >= 1]. *)
Fixpoint SplitN (c : ascii) (n : nat) (s : string) : list string :=
  match n with
  | O | S O => [s]
  | S n' =>
      match cut c s with
      | Some (a, b) => a :: SplitN c n' b
      | None => [s]
      end
  end.

End strings.

(** ** github.com/blang/semver v3.5.1

    The version type, its ordering, its printer and its parser, after the
    source of the package, which [go.mod] pins and which is not part of the
    repository.  The properties of the resolver below hold for every parser
    ([docker.ParseTolerant] is a field of the environment); the parser of
    this module serves the examples. *)
Module semver.

Record PRVersion : Type := mkPRVersion {
  VersionStr : string;
  VersionNum : N;
  IsNum : bool
}.

Record Version : Type := mkVersion {
  Major : N;
  Minor : N;
  Patch : N;
  Pre : list PRVersion;
  Build : list string
}.

(** [semver.Version{}]. *)
Definition zero : Version := mkVersion 0 0 0 [] [].

(** [PRVersion.Compare]: numeric identifiers sort below alphanumeric ones. *)
Definition PRVersion_Compare (v o : PRVersion) : Z :=
  if IsNum v && negb (IsNum o) then (-1)%Z
  else if negb (IsNum v) && IsNum o then 1%Z
  else if IsNum v && IsNum o then
    if (VersionNum v =? VersionNum o)%N then 0%Z
    else if (VersionNum o <? VersionNum v)%N then 1%Z
    else (-1)%Z
  else
    if (VersionStr v =? VersionStr o)%string then 0%Z
    else if String.ltb (VersionStr o) (VersionStr v) then 1%Z
    else (-1)%Z.

(** The loop of [Version.Compare] over the two pre-release lists, with the
    final comparison of their lengths. *)
Fixpoint comparePre (vs os : list PRVersion) : Z :=
  match vs, os with
  | x :: vs', y :: os' =>
      let comp := PRVersion_Compare x y in
      if (comp =? 0)%Z then comparePre vs' os'
      else if (comp =? 1)%Z then 1%Z
      else (-1)%Z
  | [], [] => 0%Z
  | [], _ :: _ => (-1)%Z
  | _ :: _, [] => 1%Z
  end.

(** [Version.Compare]: -1, 0 or 1.  Build metadata takes no part. *)
Definition Compare (v o : Version) : Z :=
  if negb (Major v =? Major o)%N then
    if (Major o <? Major v)%N then 1%Z else (-1)%Z
  else if negb (Minor v =? Minor o)%N then
    if (Minor o <? Minor v)%N then 1%Z else (-1)%Z
  else if negb (Patch v =? Patch o)%N then
    if (Patch o <? Patch v)%N then 1%Z else (-1)%Z
  else if (List.length (Pre v) =? 0)%nat && (List.length (Pre o) =? 0)%nat then 0%Z
  else if (List.length (Pre v) =? 0)%nat && (0 <? List.length (Pre o))%nat then 1%Z
  else if (0 <? List.length (Pre v))%nat && (List.length (Pre o) =? 0)%nat then (-1)%Z
  else comparePre (Pre v) (Pre o).

Definition Equals (v o : Version) : bool := (Compare v o =? 0)%Z.
Definition GT (v o : Version) : bool := (Compare v o =? 1)%Z.
Definition GTE (v o : Version) : bool := (0 <=? Compare v o)%Z.
Definition LT (v o : Version) : bool := (Compare v o =? -1)%Z.

Definition PRVersion_String (v : PRVersion) : string :=
  if IsNum v then utoa (VersionNum v) else VersionStr v.

(** [Version.String]: [major.minor.patch], then [-pre] and [+build] joined
    by dots when present. *)
Definition String (v : Version) : string :=
  utoa (Major v) ++ "." ++ utoa (Minor v) ++ "." ++ utoa (Patch v)
  ++ match Pre v with
     | [] => ""
     | _ :: _ => "-" ++ String.concat "." (map PRVersion_String (Pre v))
     end
  ++ match Build v with
     | [] => ""
     | _ :: _ => "+" ++ String.concat "." (Build v)
     end.

(** *** Parsing

    [ParseTolerant] and [Parse], on byte strings. *)

Fixpoint forallb_string (p : ascii -> bool) (s : string) : bool :=
  match s with
  | EmptyString => true
  | String.String c s' => p c && forallb_string p s'
  end.

Definition isDigit (c : ascii) : bool :=
  let n := nat_of_ascii c in (48 <=? n)%nat && (n <=? 57)%nat.

Definition isAlpha (c : ascii) : bool :=
  let n := nat_of_ascii c in
  ((97 <=? n)%nat && (n <=? 122)%nat) || ((65 <=? n)%nat && (n <=? 90)%nat)
  || (n =? 45)%nat.

(** [containsOnly(s, numbers)] and [containsOnly(s, alphanum)]. *)
Definition onlyNumbers (s : string) : bool := forallb_string isDigit s.
Definition onlyAlphanum (s : string) : bool :=
  forallb_string (fun c => isAlpha c || isDigit c) s.

Definition hasLeadingZeroes (s : string) : bool :=
  match s with
  | String.String c (String.String _ _) => Ascii.eqb c "0"
  | _ => false
  end.

Fixpoint digitsValue (acc : N) (s : string) : N :=
  match s with
  | EmptyString => acc
  | String.String c s' => digitsValue (10 * acc + (N_of_ascii c - 48))%N s'
  end.

(** [strconv.ParseUint(s, 10, 64)] on a string of digits. *)
Definition ParseUint (s : string) : error + N :=
  match s with
  | EmptyString => inl (New "strconv.ParseUint: invalid syntax")
  | _ =>
      let n := digitsValue 0 s in
      if (n <? 2 ^ 64)%N then inr n
      else inl (New "strconv.ParseUint: value out of range")
  end.

(** One numeric component of [Parse]. *)
Definition parseNumber (what s : string) : error + N :=
  if negb (onlyNumbers s) then
    inl (New ("Invalid character(s) found in " ++ what ++ " number"))
  else if hasLeadingZeroes s then
    inl (New (what ++ " number must not contain leading zeroes"))
  else ParseUint s.

Definition NewPRVersion (s : string) : error + PRVersion :=
  if (String.length s =? 0)%nat then inl (New "Prerelease is empty")
  else if onlyNumbers s then
    if hasLeadingZeroes s then
      inl (New "Numeric PreRelease version must not contain leading zeroes")
    else match ParseUint s with
         | inl err => inl err
         | inr num => inr (mkPRVersion "" num true)
         end
  else if onlyAlphanum s then inr (mkPRVersion s 0 false)
  else inl (New "Invalid character(s) found in prerelease").

Fixpoint parsePre (l : list string) : error + list PRVersion :=
  match l with
  | [] => inr []
  | prstr :: l' =>
      match NewPRVersion prstr with
      | inl err => inl err
      | inr parsedPR =>
          match parsePre l' with
          | inl err => inl err
          | inr rest => inr (parsedPR :: rest)
          end
      end
  end.

Fixpoint parseBuild (l : list string) : error + list string :=
  match l with
  | [] => inr []
  | str :: l' =>
      if (String.length str =? 0)%nat then inl (New "Build meta data is empty")
      else if negb (onlyAlphanum str) then
        inl (New "Invalid character(s) found in build meta data")
      else match parseBuild l' with
           | inl err => inl err
           | inr rest => inr (str :: rest)
           end
  end.

Definition Parse (s : string) : error + Version :=
  if (String.length s =? 0)%nat then inl (New "Version string empty")
  else
    match strings.SplitN "." 3 s with
    | [p0; p1; p2] =>
        match parseNumber "major" p0 with
        | inl err => inl err
        | inr major =>
        match parseNumber "minor" p1 with
        | inl err => inl err
        | inr minor =>
            let '(build, patchStr) :=
              match strings.cut "+" p2 with
              | Some (a, b) => (strings.Split "." b, a)
              | None => ([], p2)
              end in
            let '(prerelease, patchStr) :=
              match strings.cut "-" patchStr with
              | Some (a, b) => (strings.Split "." b, a)
              | None => ([], patchStr)
              end in
            match parseNumber "patch" patchStr with
            | inl err => inl err
            | inr patch =>
            match parsePre prerelease with
            | inl err => inl err
            | inr pre =>
            match parseBuild build with
            | inl err => inl err
            | inr bld => inr (mkVersion major minor patch pre bld)
            end end end
        end end
    | _ => inl (New "No Major.Minor.Patch elements found")
    end.

Definition containsPlusOrMinus (s : string) : bool :=
  negb (forallb_string (fun c => negb (Ascii.eqb c "+" || Ascii.eqb c "-")) s).

(** [ParseTolerant]: trims spaces and a leading "v", and completes a version
    that has only a major or a major and a minor number with zeroes. *)
Definition ParseTolerant (s : string) : error + Version :=
  let s := strings.TrimSpace s in
  let s := strings.TrimPrefix s "v" in
  let parts := strings.SplitN "." 3 s in
  if (List.length parts <? 3)%nat then
    if containsPlusOrMinus (last parts "") then
      inl (New "Short version cannot contain PreRelease/Build meta data")
    else
      Parse (String.concat "."
               (parts ++ repeat "0" (3 - List.length parts))%list)
  else Parse s.

End semver.

(** ** docker/dockerhub.go *)
Module docker.

Record Request : Type := mkRequest {
  Method : string;
  URL : string;
  Header : list (string * string)
}.

Record Response : Type := mkResponse {
  StatusCode : Z;
  Body : string
}.

(** What the resolver takes from outside the repository: the tolerant parser
    of the semver package, [url.QueryEscape], the registry behind
    [dockerHubClient] (its answer to a request, given the requests already
    made) and [encoding/json] decoding the two response bodies. *)
Record Env : Type := mkEnv {
  ParseTolerant : string -> error + semver.Version;
  QueryEscape : string -> string;
  RoundTrip : list Request -> Request -> error + Response;
  decodeToken : string -> error + string;
  decodeTags : string -> error + list string
}.

(** Calls that reach the registry thread the list of requests made so far. *)
Definition IO (A : Type) : Type := list Request -> A * list Request.

Definition ret {A : Type} (a : A) : IO A := fun h => (a, h).

Definition bind {A B : Type} (m : IO A) (k : A -> IO B) : IO B :=
  fun h => let '(a, h') := m h in k a h'.

Notation "x <- m ;; k" := (bind m (fun x => k))
  (at level 61, m at next level, right associativity).

(** [c.Do(req)]. *)
Definition Do (E : Env) (req : Request) : IO (error + Response) :=
  fun h => (RoundTrip E h req, (h ++ [req])%list).

(** [c.Get(url)]. *)
Definition Get (E : Env) (url : string) : IO (error + Response) :=
  Do E (mkRequest "GET" url []).

Definition StatusOK : Z := 200.

(** [url.Values.Encode] of the two parameters, keys in sorted order. *)
Definition tokenURL (E : Env) (image : string) : string :=
  "https://auth.docker.io/token?"
  ++ "scope=" ++ QueryEscape E ("repository:" ++ image ++ ":pull")
  ++ "&service=" ++ QueryEscape E "registry.docker.io".

(** The request [http.NewRequest] builds, whose error the code ignores, with
    the [Authorization] header added. *)
Definition tagsRequest (image token : string) : Request :=
  mkRequest "GET" ("https://registry-1.docker.io/v2/" ++ image ++ "/tags/list")
    [("Authorization", "Bearer " ++ token)].

Definition getTags (E : Env) (image : string) : IO (error + list string) :=
  r <- Get E (tokenURL E image) ;;
  match r with
  | inl err => ret (inl (Wrap err "can't authorize in docker registry"))
  | inr r =>
      if negb (StatusCode r =? StatusOK)%Z then
        ret (inl (New ("incorrect status code: " ++ itoa (StatusCode r)
                       ++ " while requesting docker registry token")))
      else
        match decodeToken E (Body r) with
        | inl err =>
            ret (inl (Wrap err
                   "can't parse authorization response from docker registry"))
        | inr token =>
            r <- Do E (tagsRequest image token) ;;
            match r with
            | inl err =>
                ret (inl (Wrap err
                       "can't request list of tags in docker registry"))
            | inr r =>
                if negb (StatusCode r =? StatusOK)%Z then
                  ret (inl (New ("incorrect status code: "
                                 ++ itoa (StatusCode r)
                                 ++ " while requesting the list of tags in docker registry")))
                else
                  match decodeTags E (Body r) with
                  | inl err =>
                      ret (inl (Wrap err
                             "can't parse tags response from docker registry"))
                  | inr tags => ret (inr tags)
                  end
            end
        end
  end.

(** The breaking version of [getCompatibleTag]; the increment is a [uint64]
    addition. *)
Definition breakingV (cliV : semver.Version) : semver.Version :=
  if (1 <=? semver.Major cliV)%N then
    semver.mkVersion (uint64_add (semver.Major cliV) 1) 0 0 [] []
  else
    semver.mkVersion 0 (uint64_add (semver.Minor cliV) 1) 0 [] [].

(** One iteration of the loop of [getCompatibleTag] on the pair
    [(newestV, hasNewBreakingTag)]. *)
Definition stableStep (E : Env) (cliV : semver.Version)
    (st : semver.Version * bool) (tag : string) : semver.Version * bool :=
  let '(newestV, hasNewBreakingTag) := st in
  match ParseTolerant E tag with
  | inl _ => st
  | inr v =>
      if (0 <? List.length (semver.Pre v))%nat then st
      else if semver.LT v cliV then st
      else if semver.GTE v (breakingV cliV) then (newestV, true)
      else if semver.GT v newestV then (v, hasNewBreakingTag)
      else st
  end.

Definition getCompatibleTag (E : Env) (tags : list string)
    (cliV : semver.Version) : semver.Version * bool :=
  fold_left (stableStep E cliV) tags (semver.zero, false).

(** One iteration of the loop of [getCompatibleTagForPre]. *)
Definition preStep (E : Env) (cliV : semver.Version)
    (st : semver.Version * bool) (tag : string) : semver.Version * bool :=
  let '(newestV, hasNewBreakingTag) := st in
  match ParseTolerant E tag with
  | inl _ => st
  | inr v =>
      if semver.Equals v cliV then (cliV, hasNewBreakingTag)
      else if semver.LT v cliV then st
      else if semver.GT v cliV then (newestV, true)
      else st
  end.

Definition getCompatibleTagForPre (E : Env) (tags : list string)
    (cliV : semver.Version) : semver.Version * bool :=
  fold_left (preStep E cliV) tags (semver.zero, false).

Definition notFound (image : string) : error :=
  New ("can't find compatible image in docker registry for " ++ image).

(** [GetCompatibleTag]: the tag, the breaking flag and the error. *)
Definition GetCompatibleTag (E : Env) (image currentVersion : string)
    : IO (string * bool * option error) :=
  if (currentVersion =? "")%string || (currentVersion =? "dev")%string then
    ret ("latest", false, None)
  else
    match ParseTolerant E currentVersion with
    | inl err => ret ("", false, Some err)
    | inr cliV =>
        tags <- getTags E image ;;
        match tags with
        | inl err => ret ("", false, Some err)
        | inr tags =>
            let '(newestV, hasNewBreakingTag) :=
              if (0 <? List.length (semver.Pre cliV))%nat
              then getCompatibleTagForPre E tags cliV
              else getCompatibleTag E tags cliV in
            if semver.Equals newestV semver.zero then
              ret ("", false, Some (notFound image))
            else
              ret ("v" ++ semver.String newestV, hasNewBreakingTag, None)
        end
    end.

(** A registry that answers every request with status 200; the two decoders
    give a fixed token and a fixed tag list. *)
Definition fixedRegistry (tags : list string) : Env :=
  mkEnv semver.ParseTolerant (fun s => s)
    (fun _ _ => inr (mkResponse 200 "{}"))
    (fun _ => inr "token") (fun _ => inr tags).

(** A registry that answers every request with the status [code]. *)
Definition statusRegistry (code : Z) : Env :=
  mkEnv semver.ParseTolerant (fun s => s)
    (fun _ _ => inr (mkResponse code ""))
    (fun _ => inr "token") (fun _ => inr []).

(** The two requests [getTags] makes for [image] with [fixedRegistry]. *)
Definition twoRequests (image : string) : list Request :=
  [mkRequest "GET"
     ("https://auth.docker.io/token?scope=repository:" ++ image
      ++ ":pull&service=registry.docker.io") [];
   tagsRequest image "token"].

End docker.

(** ** The sql command *)
Module cmd.

(** *** ensureConnReady

    Time is a logical clock in nanoseconds, as [time.Duration] counts them.
    The goroutine and the timer of [context.WithTimeout] both start at
    instant 0; a call of [pingDB] and [time.Sleep] take exactly the stated
    durations. *)
Definition Duration : Type := N.
Definition Second : Duration := 1000000000%N.
Definition Minute : Duration := (60 * Second)%N.

Definition globalTimeout : Duration := (5 * Minute)%N.
Definition queryTimeout : Duration := (1 * Second)%N.
Definition sleep : Duration := (1 * Second)%N.

(** What happens around one call of [ensureConnReady]: [ping i] is how long
    the [i]-th call of [pingDB] runs and what it returns; [doneFirst] is the
    case [select] takes when the send on [done] and the expiry of the context
    become ready at the same instant. *)
Record Timeline : Type := mkTimeline {
  ping : nat -> Duration * option error;
  doneFirst : bool
}.

(** [fmt.Errorf("global timeout of %v exceeded", globalTimeout)]; [%v] of
    five minutes prints [5m0s]. *)
Definition errGlobalTimeout : error := New "global timeout of 5m0s exceeded".

(** The goroutine, from its [i]-th call of [pingDB] started at instant [now].
    [Some (Some t)]: it reaches [done <- nil] at instant [t].  [Some None]: the
    context expired before a call that would have started at [now], so the
    [select] has already fired.  [None]: [fuel] iterations were not enough. *)
Fixpoint probeLoop (T : Timeline) (fuel i : nat) (now : Duration)
    : option (option Duration) :=
  if (globalTimeout <? now)%N then Some None
  else
    match fuel with
    | O => None
    | S fuel' =>
        let '(d, err) := ping T i in
        match err with
        | None => Some (Some (now + d)%N)
        | Some _ => probeLoop T fuel' (S i) (now + d + sleep)%N
        end
    end.

(** Iterations that can start before the context expires. *)
Definition rounds : nat := N.to_nat (globalTimeout / sleep) + 1.

(** The [select] of [ensureConnReady]: [Some r] when the call returns [r],
    [None] when the model ran out of fuel. *)
Definition ensureConnReady (T : Timeline) : option (option error) :=
  match probeLoop T rounds 0 0%N with
  | None => None
  | Some None => Some (Some errGlobalTimeout)
  | Some (Some t) =>
      if (t <? globalTimeout)%N then Some None
      else if (globalTimeout <? t)%N then Some (Some errGlobalTimeout)
      else if doneFirst T then Some None
      else Some (Some errGlobalTimeout)
  end.

(** *** pingDB *)

(** The engine client as [pingDB] sees it: the two results of [client.SQL]
    and, for a stream that is not nil, the error of its [Recv]. *)
Record Client : Type := mkClient {
  SQL_stream : option (option error);
  SQL_err : option error
}.

Inductive event : Type :=
| CallSQL
| CallRecv
| Sent (err : option error)
| SendBlocked (err : option error).

(** How the helper goroutine ends: it returns, it stays blocked in a send
    that nobody receives, or it dereferences a nil stream. *)
Inductive fate : Type := Exited | Blocked | Panicked.

(** [receiver]: [pingDB] is still in its [select] and will take one value
    from [done]. *)
Record gstate : Type := mkGstate {
  receiver : bool;
  trace : list event
}.

Definition G (A : Type) : Type := gstate -> (A + fate) * gstate.

Definition gret {A : Type} (a : A) : G A := fun s => (inl a, s).

Definition gbind {A B : Type} (m : G A) (k : A -> G B) : G B :=
  fun s => match m s with
           | (inl a, s') => k a s'
           | (inr f, s') => (inr f, s')
           end.

Notation "x <~ m ;; k" := (gbind m (fun x => k))
  (at level 61, m at next level, right associativity).

Definition callSQL (c : Client) : G (option (option error) * option error) :=
  fun s => (inl (SQL_stream c, SQL_err c),
            mkGstate (receiver s) (trace s ++ [CallSQL])).

(** [done <- err] on the unbuffered channel. *)
Definition send (err : option error) : G unit :=
  fun s =>
    if receiver s then (inl tt, mkGstate false (trace s ++ [Sent err]))
    else (inr Blocked, mkGstate false (trace s ++ [SendBlocked err])).

(** [stream.Recv()]. *)
Definition Recv (stream : option (option error)) : G (option error) :=
  fun s =>
    match stream with
    | None => (inr Panicked, mkGstate (receiver s) (trace s ++ [CallRecv]))
    | Some err => (inl err, mkGstate (receiver s) (trace s ++ [CallRecv]))
    end.

(** The goroutine started by [pingDB]. *)
Definition pingDB_goroutine (c : Client) : G unit :=
  r <~ callSQL c ;;
  let '(stream, err) := r in
  _ <~ match err with
       | Some err => send (Some err)
       | None => gret tt
       end ;;
  err <~ Recv stream ;;
  _ <~ match err with
       | Some err => send (Some err)
       | None => gret tt
       end ;;
  send None.

(** The run of the goroutine; [listening] says whether [pingDB] is still
    waiting on [done] when the goroutine first sends. *)
Definition runHelper (c : Client) (listening : bool) : list event * fate :=
  match pingDB_goroutine c (mkGstate listening []) with
  | (inl _, s) => (trace s, Exited)
  | (inr f, s) => (trace s, f)
  end.

Definition sends (tr : list event) : nat :=
  List.length (filter (fun e => match e with
                                | Sent _ | SendBlocked _ => true
                                | _ => false
                                end) tr).

Definition callsRecv (tr : list event) : bool :=
  existsb (fun e => match e with CallRecv => true | _ => false end) tr.

(** *** attachStdio

    The call and its two goroutines as a machine whose steps are the points
    where one of them moves on. *)

(** The terminal: whether standard input is one, and the errors of
    [term.SetRawTerminal] and [term.RestoreTerminal]. *)
Record Term : Type := mkTerm {
  isTerminal : bool;
  SetRawTerminal : option error;
  RestoreTerminal : option error
}.

(** The calling goroutine: before the terminal set-up, in the [select], in
    [return <-outputDone], at a [return err] whose deferred functions have
    not run yet, and back in the caller. *)
Inductive mainPC : Type :=
| AtEntry
| AtSelect
| AtRecvOutput
| Returning (err : option error)
| Returned (err : option error).

(** The goroutine that copies the remote stream to standard output. *)
Inductive outputPC : Type :=
| OutIdle
| OutCopying
| OutSending (err : option error)
| OutClosing
| OutExited.

(** The goroutine that copies standard input to the remote stream. *)
Inductive inputPC : Type :=
| InIdle
| InCopying
| InClosing (err : option error)
| InSending (err : option error)
| InExited.

Inductive channel : Type := outputDone | inputDone.

(** The three goroutines, whether the deferred [RestoreTerminal] is
    registered, whether [resp.CloseWrite] has been called, and four history
    variables: the error each [io.Copy] returned once it has, the case the
    [select] took once it has, and the value of the [return] statement once
    one is executed. *)
Record state : Type := mkState {
  mainG : mainPC;
  outputG : outputPC;
  inputG : inputPC;
  restoreDeferred : bool;
  writeClosed : bool;
  outputErr : option (option error);
  inputErr : option (option error);
  taken : option channel;
  returnStmt : option (option error)
}.

Inductive step : Type :=
| Enter
| OutputCopyEnds (err : option error)
| InputCopyEnds (err : option error)
| InputCloseWrite
| OutputCloseWrite
| SelectOutputDone
| SelectInputDone
| RecvOutputDone
| Leave.

Definition init : state :=
  mkState AtEntry OutIdle InIdle false false None None None None.

(** One step; [None] when the step is not enabled in the state. *)
Definition next (T : Term) (s : state) (e : step) : option state :=
  let '(mkState m o i d w oe ie tk rs) := s in
  match e, m, o, i with
  | Enter, AtEntry, _, _ =>
      (* StdStreams, GetFdInfo, SetRawTerminal, defer, go, go *)
      if isTerminal T then
        match SetRawTerminal T with
        | Some err =>
            Some (mkState (Returned (Some err)) o i false w oe ie tk
                    (Some (Some err)))
        | None =>
            Some (mkState AtSelect OutCopying InCopying true w oe ie tk rs)
        end
      else Some (mkState AtSelect OutCopying InCopying false w oe ie tk rs)
  | OutputCopyEnds err, _, OutCopying, _ =>
      (* _, err := io.Copy(out, resp.Reader) *)
      Some (mkState m (OutSending err) i d w (Some err) ie tk rs)
  | InputCopyEnds err, _, _, InCopying =>
      (* _, err := io.Copy(resp.Conn, in) *)
      Some (mkState m o (InClosing err) d w oe (Some err) tk rs)
  | InputCloseWrite, _, _, InClosing err =>
      (* resp.CloseWrite() of the input goroutine *)
      Some (mkState m o (InSending err) d true oe ie tk rs)
  | OutputCloseWrite, _, OutClosing, _ =>
      (* resp.CloseWrite() of the output goroutine *)
      Some (mkState m OutExited i d true oe ie tk rs)
  | SelectOutputDone, AtSelect, OutSending err, _ =>
      (* case err := <-outputDone: return err *)
      Some (mkState (Returning err) OutClosing i d w oe ie (Some outputDone)
              (Some err))
  | SelectInputDone, AtSelect, _, InSending err =>
      (* case err := <-inputDone: if err == nil { ... }; return err *)
      match err with
      | None =>
          Some (mkState AtRecvOutput o InExited d w oe ie (Some inputDone) rs)
      | Some _ =>
          Some (mkState (Returning err) o InExited d w oe ie (Some inputDone)
                  (Some err))
      end
  | RecvOutputDone, AtRecvOutput, OutSending err, _ =>
      (* return <-outputDone *)
      Some (mkState (Returning err) OutClosing i d w oe ie tk (Some err))
  | Leave, Returning err, _, _ =>
      (* the deferred function, then the return to the caller *)
      Some (mkState (Returned (if d then RestoreTerminal T else err))
              o i false w oe ie tk rs)
  | _, _, _, _ => None
  end.

Fixpoint exec (T : Term) (s : state) (tr : list step) : option state :=
  match tr with
  | [] => Some s
  | e :: tr' =>
      match next T s e with
      | Some s' => exec T s' tr'
      | None => None
      end
  end.

(** *** sqlCmd.Execute *)

(** What [Execute] meets outside itself: [strings.TrimSpace], [humanizef]
    of the same package, the results of the calls it makes and the state
    of standard input.  [exit] is the value received from the exit channel;
    [int] has 64 bits, so that [int(<-exit)] is that value. *)
Record World : Type := mkWorld {
  TrimSpace : string -> string;
  humanizef : error -> string -> error;
  daemon_Client : option error;
  startGitbaseWithClient : option error;
  connReady : option error;
  stdinIsCharDevice : bool;
  stdinReadAll : error + string;
  runMysqlCli : string -> option error;
  copyToStdout : option error;
  exit : Z;
  attachStdio : option error
}.

(** The query: the positional argument trimmed, or all of a piped standard
    input. *)
Definition readQuery (w : World) (Query : string) : error + string :=
  if negb (Query =? "")%string then inr (TrimSpace w Query)
  else if negb (stdinIsCharDevice w) then
    match stdinReadAll w with
    | inl err => inl (humanizef w err "could not read input")
    | inr b => inr b
    end
  else inr "".

Definition Execute (w : World) (Query : string) (args : list string)
    : option error :=
  if (0 <? List.length args)%nat then
    Some (New "too many arguments, expected only one query or nothing")
  else
    match daemon_Client w with
    | Some err => Some (humanizef w err "could not get daemon client")
    | None =>
    match startGitbaseWithClient w with
    | Some err => Some err
    | None =>
    match connReady w with
    | Some err => Some (humanizef w err "could not connect to gitbase")
    | None =>
    match readQuery w Query with
    | inl err => Some err
    | inr query =>
    match runMysqlCli w query with
    | Some err => Some (humanizef w err "could not run mysql client")
    | None =>
        if negb (query =? "")%string then
          match copyToStdout w with
          | Some err => Some err
          | None =>
              let cd := exit w in
              if negb (cd =? 0)%Z then
                Some (New ("MySQL exited with status " ++ itoa cd))
              else None
          end
        else attachStdio w
    end end end end end.

(** A world in which everything up to the start of the mysql client
    succeeds and standard input is a terminal. *)
Definition sqlWorld (copy : option error) (code : Z) : World :=
  mkWorld strings.TrimSpace (fun err msg => Wrap err msg) None None None
    true (inr "")
    (fun _ => None) copy code None.

End cmd.

(** ** The resolver in the words of its specification

    The sets of versions the description of the stable-client and
    pre-release-client algorithms speaks of, defined on the whole tag list
    rather than by a scan. *)
Module resolver.

Import docker.

(** The versions of the tags that parse, in the order of the tags. *)
Definition parsedTags (E : Env) (tags : list string) : list semver.Version :=
  flat_map (fun tag => match ParseTolerant E tag with
                       | inr v => [v]
                       | inl _ => []
                       end) tags.

Definition isStable (v : semver.Version) : bool :=
  match semver.Pre v with [] => true | _ :: _ => false end.

(** Unparseable and pre-release tags are skipped. *)
Definition stableTags (E : Env) (tags : list string) : list semver.Version :=
  filter isStable (parsedTags E tags).

(** The breaking boundary: the next major with minor and patch zeroed when
    major >= 1, else the next minor with patch zeroed.  The successor is
    the one of the natural numbers. *)
Definition boundary (cliV : semver.Version) : semver.Version :=
  if (1 <=? semver.Major cliV)%N then
    semver.mkVersion (semver.Major cliV + 1) 0 0 [] []
  else
    semver.mkVersion 0 (semver.Minor cliV + 1) 0 [] [].

(** Versions strictly less than the current one are skipped. *)
Definition notOlder (E : Env) (cliV : semver.Version) (tags : list string)
    : list semver.Version :=
  filter (fun v => negb (semver.LT v cliV)) (stableTags E tags).

Definition breaks (cliV v : semver.Version) : bool :=
  semver.GTE v (boundary cliV).

(** Some version at or above the boundary is present. *)
Definition breakingFlag (E : Env) (cliV : semver.Version)
    (tags : list string) : bool :=
  existsb (breaks cliV) (notOlder E cliV tags).

(** The remainder: what is neither skipped nor breaking. *)
Definition remainder (E : Env) (cliV : semver.Version) (tags : list string)
    : list semver.Version :=
  filter (fun v => negb (breaks cliV v)) (notOlder E cliV tags).

(** [r] is the strict maximum of [l], the zero version standing for the
    maximum of a list without a version above 0.0.0: either nothing in [l]
    is greater than the zero version and [r] is the zero version, or [r] is
    the first element of [l] that none exceeds, and it is greater than the
    zero version. *)
Definition strictMaximum (l : list semver.Version) (r : semver.Version)
    : Prop :=
  (r = semver.zero /\ forall v, In v l -> semver.GT v semver.zero = false)
  \/ (semver.GT r semver.zero = true
      /\ exists pre post,
           l = (pre ++ r :: post)%list
           /\ (forall x, In x pre -> semver.LT x r = true)
           /\ (forall x, In x post -> semver.GT x r = false)).

(** The order of two versions by major, minor and patch number. *)
Definition numLt (a b : semver.Version) : Prop :=
  (semver.Major a < semver.Major b
   \/ (semver.Major a = semver.Major b
       /\ (semver.Minor a < semver.Minor b
           \/ (semver.Minor a = semver.Minor b
               /\ semver.Patch a < semver.Patch b))))%N.

Definition numEq (a b : semver.Version) : Prop :=
  semver.Major a = semver.Major b /\ semver.Minor a = semver.Minor b
  /\ semver.Patch a = semver.Patch b.

(** [fold_left keepGreater l b]: what the scan keeps of [l], from [b]. *)
Definition keepGreater (best v : semver.Version) : semver.Version :=
  if semver.GT v best then v else best.

Arguments keepGreater : simpl never.

(** Pre-release client: some tag parses to the current version. *)
Definition exactMatch (E : Env) (cliV : semver.Version) (tags : list string)
    : bool :=
  existsb (fun v => semver.Equals v cliV) (parsedTags E tags).

(** Pre-release client: some tag parses to a version strictly greater than
    the current one. *)
Definition newerPresent (E : Env) (cliV : semver.Version)
    (tags : list string) : bool :=
  existsb (fun v => semver.GT v cliV) (parsedTags E tags).

(** The increment that computes the boundary stays within [uint64]. *)
Definition noOverflow (cliV : semver.Version) : Prop :=
  if (1 <=? semver.Major cliV)%N
  then (semver.Major cliV + 1 < 2 ^ 64)%N
  else (semver.Minor cliV + 1 < 2 ^ 64)%N.

(** The ways the registry can fail [getTags] for [image], the requests [h]
    having been made before: the token request or the tag-list request fails
    or is answered with a status other than 200, or the body of either
    answer does not parse. *)
Inductive registryFails (E : Env) (image : string) (h : list Request)
    : Prop :=
| tokenRequestFails (err : error) :
    RoundTrip E h (mkRequest "GET" (tokenURL E image) []) = inl err ->
    registryFails E image h
| tokenStatus (r : Response) :
    RoundTrip E h (mkRequest "GET" (tokenURL E image) []) = inr r ->
    StatusCode r <> 200%Z ->
    registryFails E image h
| tokenBody (r : Response) (err : error) :
    RoundTrip E h (mkRequest "GET" (tokenURL E image) []) = inr r ->
    decodeToken E (Body r) = inl err ->
    registryFails E image h
| tagsRequestFails (r : Response) (token : string) (err : error) :
    RoundTrip E h (mkRequest "GET" (tokenURL E image) []) = inr r ->
    StatusCode r = 200%Z ->
    decodeToken E (Body r) = inr token ->
    RoundTrip E (h ++ [mkRequest "GET" (tokenURL E image) []])%list
      (tagsRequest image token) = inl err ->
    registryFails E image h
| tagsStatus (r r' : Response) (token : string) :
    RoundTrip E h (mkRequest "GET" (tokenURL E image) []) = inr r ->
    StatusCode r = 200%Z ->
    decodeToken E (Body r) = inr token ->
    RoundTrip E (h ++ [mkRequest "GET" (tokenURL E image) []])%list
      (tagsRequest image token) = inr r' ->
    StatusCode r' <> 200%Z ->
    registryFails E image h
| tagsBody (r r' : Response) (token : string) (err : error) :
    RoundTrip E h (mkRequest "GET" (tokenURL E image) []) = inr r ->
    decodeToken E (Body r) = inr token ->
    RoundTrip E (h ++ [mkRequest "GET" (tokenURL E image) []])%list
      (tagsRequest image token) = inr r' ->
    decodeTags E (Body r') = inl err ->
    registryFails E image h.

End resolver.

(** ** The readiness wait on its time line *)
Module readiness.

Import cmd.

(** The instant at which the [n]-th call of [pingDB] starts when all the
    calls before it failed, and the instant at which it returns. *)
Fixpoint startOf (T : Timeline) (n : nat) : Duration :=
  match n with
  | O => 0%N
  | S k => (startOf T k + fst (ping T k) + sleep)%N
  end.

Definition finishOf (T : Timeline) (n : nat) : Duration :=
  (startOf T n + fst (ping T n))%N.

(** The [n]-th call is the first that returns nil. *)
Definition firstSuccess (T : Timeline) (n : nat) : Prop :=
  snd (ping T n) = None /\ forall i, (i < n)%nat -> snd (ping T i) <> None.

(** The [n]-th call returns before the deadline: at an earlier instant, or at
    the same instant with the send on [done] taken first. *)
Definition beforeDeadline (T : Timeline) (n : nat) : Prop :=
  (finishOf T n < globalTimeout)%N
  \/ (finishOf T n = globalTimeout /\ doneFirst T = true).

(** Two time lines that differ only in the errors of the failing calls. *)
Definition sameButErrors (T T' : Timeline) : Prop :=
  doneFirst T = doneFirst T'
  /\ forall i, fst (ping T i) = fst (ping T' i)
               /\ (snd (ping T i) = None <-> snd (ping T' i) = None).

End readiness.

(** ** Invariants of the attach machine *)
Module attach.

Import cmd.

(** What the history variables record, in every state the machine reaches. *)
Definition coherent (T : Term) (s : state) : Prop :=
  (mainG s = AtEntry ->
   outputG s = OutIdle /\ inputG s = InIdle
   /\ outputErr s = None /\ inputErr s = None)
  /\ (outputG s = OutCopying -> outputErr s = None)
  /\ (forall e, outputG s = OutSending e -> outputErr s = Some e)
  /\ (inputG s = InCopying -> inputErr s = None)
  /\ (forall e, inputG s = InClosing e -> inputErr s = Some e)
  /\ (forall e, inputG s = InSending e ->
                inputErr s = Some e /\ writeClosed s = true)
  /\ (mainG s = AtEntry \/ mainG s = AtSelect ->
      taken s = None /\ returnStmt s = None)
  /\ (mainG s = AtRecvOutput ->
      taken s = Some inputDone /\ inputErr s = Some None
      /\ returnStmt s = None)
  /\ (isTerminal T = false -> restoreDeferred s = false)
  /\ (forall r, mainG s = Returning r -> returnStmt s = Some r)
  /\ (forall r', mainG s = Returned r' ->
      exists r, returnStmt s = Some r /\ (isTerminal T = false -> r' = r))
  /\ (taken s = Some outputDone ->
      forall r, returnStmt s = Some r -> outputErr s = Some r)
  /\ (taken s = Some inputDone ->
      writeClosed s = true
      /\ exists e, inputErr s = Some e
                   /\ forall r, returnStmt s = Some r ->
                                match e with
                                | None => outputErr s = Some r
                                | Some _ => r = e
                                end).

(** With a terminal in raw mode the restoration stays registered until the
    call leaves, and then decides the result. *)
Definition restoring (T : Term) (s : state) : Prop :=
  (mainG s = AtSelect \/ mainG s = AtRecvOutput
   \/ (exists r, mainG s = Returning r) -> restoreDeferred s = true)
  /\ (forall r, mainG s = Returned r -> r = RestoreTerminal T).

End attach.

(** ** The scan of the stable client with the boundary as the code computes it *)
Module tagscan.

Import docker resolver.

(** The first request of [getTags]. *)
Definition tokenRequest (E : Env) (image : string) : Request :=
  mkRequest "GET" (tokenURL E image) [].

(** The versions the scan compares with [newestV]: stable, not older than
    the current version and below [breakingV]. *)
Definition kept (E : Env) (cliV : semver.Version) (tags : list string)
    : list semver.Version :=
  filter (fun v => negb (semver.GTE v (breakingV cliV))) (notOlder E cliV tags).

(** Some stable version that is not older reaches [breakingV]. *)
Definition flagged (E : Env) (cliV : semver.Version) (tags : list string)
    : bool :=
  existsb (fun v => semver.GTE v (breakingV cliV)) (notOlder E cliV tags).

(** Two tag lists with the same elements. *)
Definition sameTags (tags tags' : list string) : Prop :=
  forall t, In t tags <-> In t tags'.

End tagscan.
(** ** More on the goroutines of the sql command *)
Module goroutines.

Import cmd.

(** The sends of the helper goroutine that a receiver took. *)
Definition completed (tr : list event) : nat :=
  List.length (filter (fun e => match e with Sent _ => true | _ => false end)
                 tr).

(** The output goroutine is at or before its send on [outputDone]. *)
Definition outputHeld (s : state) : Prop :=
  outputG s = OutCopying \/ exists err, outputG s = OutSending err.

(** The output goroutine is past its send on [outputDone]. *)
Definition outputReleased (s : state) : Prop :=
  outputG s = OutClosing \/ outputG s = OutExited.

(** The calling goroutine has executed a [return] statement. *)
Definition leaving (s : state) : Prop :=
  (exists r, mainG s = Returning r) \/ (exists r, mainG s = Returned r).

(** Where the two copying goroutines stand, by the state of the caller and
    the case its [select] took. *)
Definition placed (s : state) : Prop :=
  (mainG s = AtSelect -> outputHeld s /\ inputG s <> InExited)
  /\ (mainG s = AtRecvOutput -> outputHeld s)
  /\ (taken s = Some outputDone ->
      inputG s <> InExited /\ outputReleased s /\ leaving s)
  /\ (taken s = Some inputDone -> inputG s = InExited)
  /\ (taken s = Some inputDone ->
      forall e, inputErr s = Some (Some e) -> outputHeld s /\ leaving s)
  /\ (taken s = Some inputDone -> inputErr s = Some None ->
      mainG s = AtRecvOutput \/ (outputReleased s /\ leaving s)).

End goroutines.
(** ** docker/docker.go

    The functions of the package that look containers and images up,
    install images and create containers.  The engine is an oracle: what a
    call returns may depend on all the calls made before it. *)
Module engine.

Record Container : Type := mkContainer {
  ID : string;
  Names : list string;
  Image : string;
  State : string
}.

Record ImageSummary : Type := mkImage {
  RepoTags : list string
}.

Record HostInfo : Type := mkHostInfo {
  OSType : string;
  OperatingSystem : string
}.

(** The calls that reach the engine. *)
Inductive call : Type :=
| GetClientCall
| InfoCall
| ContainerListCall (name : string)
| ImageListCall
| ImagePullCall (id : string)
| ContainerCreateCall (name : string)
| ContainerRemoveCall (id : string) (removeVolumes : bool)
| StartCall.

(** The engine, the client constructor [GetClient], [strings.ToLower] and
    the quoting of [%q]. *)
Record Daemon : Type := mkDaemon {
  getClient : list call -> option error;
  engineInfo : list call -> error + HostInfo;
  containerList : list call -> string -> error + list Container;
  imageList : list call -> error + list ImageSummary;
  imagePull : list call -> string -> option error;
  pullClose : list call -> option error;
  containerCreate : list call -> string -> error + string;
  containerRemove : list call -> string -> bool -> option error;
  ToLower : string -> string;
  Quote : string -> string
}.

(** A computation that calls the engine: from the calls made so far to a
    result and the calls made then. *)
Definition Eng (A : Type) : Type := list call -> A * list call.

Definition pure {A : Type} (a : A) : Eng A := fun h => (a, h).

Definition andThen {A B : Type} (m : Eng A) (k : A -> Eng B) : Eng B :=
  fun h => let '(a, h') := m h in k a h'.

Notation "x <-- m ;; k" := (andThen m (fun x => k))
  (at level 61, m at next level, right associativity).

(** One call: its answer given the calls before it, and the record of it. *)
Definition ask {A : Type} (c : call) (answer : list call -> A) : Eng A :=
  fun h => (answer h, (h ++ [c])%list).

Definition GetClient (D : Daemon) : Eng (option error) :=
  ask GetClientCall (getClient D).

(** [SplitImageID]: the text before the first colon, and the text between
    the first and the second colon, or "latest" without a colon. *)
Definition SplitImageID (id : string) : string * string :=
  let parts := strings.Split ":" id in
  let image := nth 0 parts "" in
  let version :=
    if (1 <? List.length parts)%nat then nth 1 parts "" else "latest" in
  (image, version).

(** What [Info] returns: a container, [ErrNotFound], another error; or it
    panics, slicing an empty name. *)
Inductive lookup : Type :=
| Found (c : Container)
| NotFound
| Failed (err : error)
| Panics.

Definition ErrNotFound : error := New "container not found".

(** The inner loop of [Info]: whether [name == n[1:]] for some name of the
    container; [None] when a name before the match is empty. *)
Fixpoint matchName (name : string) (names : list string) : option bool :=
  match names with
  | [] => Some false
  | n :: names' =>
      match n with
      | EmptyString => None
      | String.String _ tl =>
          if (name =? tl)%string then Some true else matchName name names'
      end
  end.

(** The outer loop of [Info]. *)
Fixpoint findContainer (name : string) (cs : list Container) : lookup :=
  match cs with
  | [] => NotFound
  | c :: cs' =>
      match matchName name (Names c) with
      | None => Panics
      | Some true => Found c
      | Some false => findContainer name cs'
      end
  end.

Definition Info (D : Daemon) (name : string) : Eng lookup :=
  err <-- GetClient D ;;
  match err with
  | Some err => pure (Failed (Wrap err "could not create docker client"))
  | None =>
      cs <-- ask (ContainerListCall name) (fun h => containerList D h name) ;;
      match cs with
      | inl err => pure (Failed (Wrap err "could not list containers"))
      | inr cs => pure (findContainer name cs)
      end
  end.

(** The result of a function that can panic. *)
Inductive outcome (A : Type) : Type :=
| Returns (a : A)
| Panic.

Arguments Returns {A} a.
Arguments Panic {A}.

(** The version with the empty version read as "latest". *)
Definition orLatest (v : string) : string :=
  if (v =? "")%string then "latest" else v.

Definition IsRunning (D : Daemon) (name image : string)
    : Eng (outcome (bool * option error)) :=
  info <-- Info D name ;;
  match info with
  | Panics => pure Panic
  | NotFound => pure (Returns (false, None))
  | Failed err => pure (Returns (false, Some err))
  | Found info =>
      if negb (State info =? "running")%string then
        pure (Returns (false, None))
      else if (image =? "")%string then pure (Returns (true, None))
      else
        let '(infoImgName, infoImgV) := SplitImageID (Image info) in
        let infoImgV := orLatest infoImgV in
        let '(imgName, imgV) := SplitImageID image in
        let imgV := orLatest imgV in
        pure (Returns ((imgName =? infoImgName)%string
                       && (imgV =? infoImgV)%string, None))
  end.

Definition ListImages (D : Daemon) : Eng (error + list ImageSummary) :=
  err <-- GetClient D ;;
  match err with
  | Some err => pure (inl (Wrap err "could not create docker client"))
  | None =>
      images <-- ask ImageListCall (imageList D) ;;
      match images with
      | inl err => pure (inl (Wrap err "could not get list of images"))
      | inr images => pure (inr images)
      end
  end.

(** The versions of the repository tags whose image name is [image], in
    the order of the images and of their tags. *)
Definition versionsOf (image : string) (imgs : list ImageSummary)
    : list string :=
  flat_map (fun i =>
    flat_map (fun repoTag =>
      let '(img, v) := SplitImageID repoTag in
      if (image =? img)%string then [v] else []) (RepoTags i)) imgs.

Definition VersionsInstalled (D : Daemon) (image : string)
    : Eng (error + list string) :=
  imgs <-- ListImages D ;;
  match imgs with
  | inl err => pure (inl err)
  | inr imgs => pure (inr (versionsOf image imgs))
  end.

Definition IsInstalled (D : Daemon) (image version : string)
    : Eng (bool * option error) :=
  versions <-- VersionsInstalled D image ;;
  match versions with
  | inl err => pure (false, Some err)
  | inr versions =>
      if (version =? "")%string then
        pure ((0 <? List.length versions)%nat, None)
      else
        pure (existsb (fun v => (v =? version)%string) versions, None)
  end.

Definition Pull (D : Daemon) (image version : string) : Eng (option error) :=
  err <-- GetClient D ;;
  match err with
  | Some err => pure (Some (Wrap err "could not create docker client"))
  | None =>
      let id := image ++ ":" ++ version in
      err <-- ask (ImagePullCall id) (fun h => imagePull D h id) ;;
      match err with
      | Some err =>
          pure (Some (Wrap err ("could not pull image " ++ Quote D id)))
      | None => fun h => (pullClose D h, h)
      end
  end.

Definition EnsureInstalled (D : Daemon) (image version : string)
    : Eng (option error) :=
  r <-- IsInstalled D image version ;;
  let '(ok, err) := r in
  match err with
  | Some err => pure (Some err)
  | None =>
      if ok then pure None
      else
        let version := if (version =? "")%string then "latest" else version in
        Pull D image version
  end.

(** [forceContainerCreate]: the identifier of the container created or the
    error. *)
Definition forceContainerCreate (D : Daemon) (name : string)
    : Eng (outcome (error + string)) :=
  res <-- ask (ContainerCreateCall name) (fun h => containerCreate D h name) ;;
  match res with
  | inr id => pure (Returns (inr id))
  | inl err =>
      info <-- Info D name ;;
      match info with
      | Panics => pure Panic
      | NotFound | Failed _ => pure (Returns (inl err))
      | Found info =>
          rerr <-- ask (ContainerRemoveCall (ID info) false)
                     (fun h => containerRemove D h (ID info) false) ;;
          match rerr with
          | Some rerr => pure (Returns (inl rerr))
          | None =>
              res <-- ask (ContainerCreateCall name)
                        (fun h => containerCreate D h name) ;;
              pure (Returns res)
          end
      end
  end.

(** [InfoOrStart], with the start function as a computation. *)
Definition InfoOrStart (D : Daemon) (name : string)
    (start : Eng (option error)) : Eng lookup :=
  r <-- IsRunning D name "" ;;
  match r with
  | Panic => pure Panics
  | Returns (_, Some err) => pure (Failed err)
  | Returns (running, None) =>
      if running then Info D name
      else
        err <-- start ;;
        match err with
        | Some err => pure (Failed (Wrap err ("could not create " ++ name)))
        | None => Info D name
        end
  end.

(** *** HostPath *)

(** [\w] of the regular expression: an ASCII letter, digit or underscore. *)
Definition isWord (c : ascii) : bool :=
  let n := nat_of_ascii c in
  ((48 <=? n)%nat && (n <=? 57)%nat) || ((65 <=? n)%nat && (n <=? 90)%nat)
  || ((97 <=? n)%nat && (n <=? 122)%nat) || (n =? 95)%nat.

(** [strings.ToLower] on one ASCII character. *)
Definition lowerChar (c : ascii) : ascii :=
  let n := nat_of_ascii c in
  if ((65 <=? n)%nat && (n <=? 90)%nat) then ascii_of_nat (n + 32) else c.

(** Replacing the match of [^(\w):] by "//" and the lowered character. *)
Definition driveToSlashes (hostPath : string) : string :=
  match hostPath with
  | String.String c (String.String ":" rest) =>
      if isWord c then "//" ++ String.String (lowerChar c) rest
      else hostPath
  | _ => hostPath
  end.

Fixpoint hasPrefix (p s : string) : bool :=
  match p, s with
  | EmptyString, _ => true
  | String.String a p', String.String b s' => Ascii.eqb a b && hasPrefix p' s'
  | String.String _ _, EmptyString => false
  end.

(** [strings.Contains]. *)
Fixpoint Contains (s substr : string) : bool :=
  hasPrefix substr s
  || match s with
     | EmptyString => false
     | String.String _ s' => Contains s' substr
     end.

Definition isWinHost (D : Daemon) (info : HostInfo) : bool :=
  (OSType info =? "windows")%string
  || Contains (ToLower D (OperatingSystem info)) "windows".

Definition HostPath (D : Daemon) (hostPath : string) : Eng (error + string) :=
  err <-- GetClient D ;;
  match err with
  | Some err => pure (inl (Wrap err "could not create docker client"))
  | None =>
      info <-- ask InfoCall (engineInfo D) ;;
      match info with
      | inl err =>
          pure (inl (Wrap err
                  "could not get information about docker server"))
      | inr info =>
          if isWinHost D info then pure (inr (driveToSlashes hostPath))
          else pure (inr hostPath)
      end
  end.

(** *** The size of the terminal *)

(** [initTtySize]: the number of calls of [resizeTty], the [i]-th of which
    returns [resize i]: one call, and after a failure up to five more, until
    one succeeds. *)
Fixpoint retryResize (resize : nat -> option error) (left i : nat) : nat :=
  match left with
  | O => O
  | S left' =>
      match resize i with
      | None => 1
      | Some _ => S (retryResize resize left' (S i))
      end
  end.

Definition initTtySize (resize : nat -> option error) : nat :=
  match resize 0 with
  | None => 1
  | Some _ => S (retryResize resize 5 1)
  end.

(** The polling loop of [monitorTtySize] for hosts without a resize signal:
    [size i] is what [getStdOutSize] returns at the [i]-th reading, as
    (height, width); the result lists the readings, among the [n] after the
    first, at which [resizeTty] is called. *)
Fixpoint pollSize (size : nat -> N * N) (n i : nat) (prev : N * N)
    : list nat :=
  match n with
  | O => []
  | S n' =>
      let '(h, w) := size i in
      let '(prevH, prevW) := prev in
      let rest := pollSize size n' (S i) (h, w) in
      if negb (prevW =? w)%N || negb (prevH =? h)%N then i :: rest else rest
  end.

Definition monitorPoll (size : nat -> N * N) (n : nat) : list nat :=
  pollSize size n 1 (size 0).

(** *** Attach *)

(** The goroutine of [Attach] that waits for the container to stop: the
    code it sends on the exit channel, from what [ContainerWait] delivers,
    an error or the wait body with its status code. *)
Definition exitCode (wait : error + Z) : Z :=
  match wait with
  | inl _ => 1%Z
  | inr status => status
  end.

(** A string without a colon. *)
Definition noColon (s : string) : bool :=
  semver.forallb_string (fun c => negb (Ascii.eqb ":" c)) s.

(** An engine with the given images and containers, where every call
    succeeds and nothing changes. *)
Definition quietDaemon (imgs : list ImageSummary) (cs : list Container)
    (os : HostInfo) : Daemon :=
  mkDaemon (fun _ => None) (fun _ => inr os) (fun _ _ => inr cs)
    (fun _ => inr imgs) (fun _ _ => None) (fun _ => None)
    (fun _ _ => inr "c0ffee") (fun _ _ _ => None) (fun s => s) (fun s => s).

End engine.
(** ** The config file *)
Module config.

(** What [Read] meets outside itself, for a type [Config] of configurations:
    the home directory, [filepath.Join] of it with ".srcd" and "config.yml",
    whether [os.Stat] of a path fails with an error that [os.IsNotExist]
    accepts, the content of a file, and [yaml.UnmarshalStrict] of a content
    into a configuration, with its error and the configuration it leaves. *)
Record Files (Config : Type) : Type := mkFiles {
  homedir : error + string;
  defaultPath : string -> string;
  notExist : string -> bool;
  ReadFile : string -> error + string;
  UnmarshalStrict : string -> Config -> option error * Config
}.

Arguments homedir {Config} _.
Arguments defaultPath {Config} _ _.
Arguments notExist {Config} _ _.
Arguments ReadFile {Config} _ _.
Arguments UnmarshalStrict {Config} _ _ _.

(** The part of [Read] from the reading of the file on. *)
Definition readAt {Config : Type} (F : Files Config) (configFile : string)
    (File : Config) : option error * Config :=
  match ReadFile F configFile with
  | inl err =>
      (Some (Wrap err ("failed to read config file " ++ configFile)), File)
  | inr content =>
      match UnmarshalStrict F content File with
      | (Some err, File') =>
          (Some (Wrap err ("config file " ++ configFile
                           ++ " does not follow the expected format")),
           File')
      | (None, File') => (None, File')
      end
  end.

(** [Read]: the error, and the value of [File] afterwards. *)
Definition Read {Config : Type} (F : Files Config) (configFile : string)
    (File : Config) : option error * Config :=
  if (configFile =? "")%string then
    match homedir F with
    | inl err => (Some (Wrap err "could not detect home directory"), File)
    | inr home =>
        let configFile := defaultPath F home in
        if notExist F configFile then (None, File)
        else readAt F configFile File
    end
  else readAt F configFile File.

End config.

(** * Properties *)

(** ** The order of versions *)
Section SemverOrder.

Import semver resolver.

Lemma PRVersion_Compare_range (x y : PRVersion) :
  PRVersion_Compare x y = (-1)%Z \/ PRVersion_Compare x y = 0%Z
  \/ PRVersion_Compare x y = 1%Z.
Proof.
  unfold PRVersion_Compare.
  repeat match goal with |- context [if ?b then _ else _] => destruct b end;
    auto.
Qed.

Lemma comparePre_range (vs os : list PRVersion) :
  comparePre vs os = (-1)%Z \/ comparePre vs os = 0%Z
  \/ comparePre vs os = 1%Z.
Proof.
  revert os; induction vs as [|x vs IH]; intros [|y os]; simpl; auto.
  destruct (PRVersion_Compare x y =? 0)%Z; [apply IH|].
  destruct (PRVersion_Compare x y =? 1)%Z; auto.
Qed.

(** [Compare] answers -1, 0 or 1: of [LT], [Equals] and [GT] exactly one
    holds. *)
Lemma Compare_range (v o : Version) :
  Compare v o = (-1)%Z \/ Compare v o = 0%Z \/ Compare v o = 1%Z.
Proof.
  unfold Compare.
  repeat match goal with
         | |- context [if ?b then _ else _] => destruct b
         end; auto using comparePre_range.
Qed.

Lemma isStable_Pre (v : Version) : isStable v = true <-> Pre v = [].
Proof.
  unfold isStable; destruct (Pre v); split; intros H; congruence.
Qed.

Lemma isStable_length (v : Version) :
  (0 <? List.length (Pre v))%nat = negb (isStable v).
Proof. unfold isStable; destruct (Pre v); reflexivity. Qed.

(** On versions without pre-release [Compare] is the order of the three
    numbers. *)
Lemma Compare_stable (v o : Version) :
  isStable v = true -> isStable o = true ->
  (Compare v o = 1%Z /\ numLt o v) \/ (Compare v o = 0%Z /\ numEq v o)
  \/ (Compare v o = (-1)%Z /\ numLt v o).
Proof.
  intros Hv Ho. apply isStable_Pre in Hv, Ho.
  unfold Compare, numLt, numEq. rewrite Hv, Ho. simpl.
  destruct (N.eqb_spec (Major v) (Major o)); simpl;
    [|destruct (N.ltb_spec (Major o) (Major v)); [left|right; right]; lia].
  destruct (N.eqb_spec (Minor v) (Minor o)); simpl;
    [|destruct (N.ltb_spec (Minor o) (Minor v)); [left|right; right]; lia].
  destruct (N.eqb_spec (Patch v) (Patch o)); simpl;
    [|destruct (N.ltb_spec (Patch o) (Patch v)); [left|right; right]; lia].
  right; left; auto.
Qed.

End SemverOrder.

(** Compares every pair of the given stable versions and closes the goal by
    arithmetic on their numbers. *)
Ltac by_order :=
  unfold semver.GT, semver.LT, semver.GTE, semver.Equals in *;
  repeat match goal with
         | Hv : resolver.isStable ?v = true, Ho : resolver.isStable ?o = true
           |- _ =>
             match goal with
             | _ : context [semver.Compare v o] |- _ => idtac
             | |- context [semver.Compare v o] => idtac
             end;
             let H := fresh "Hcmp" in
             destruct (Compare_stable v o Hv Ho) as [[H ?]|[[H ?]|[H ?]]];
             rewrite H in *; clear H
         end;
  unfold resolver.numLt, resolver.numEq in *; simpl in *;
  try discriminate; try reflexivity; try lia.

Section SemverOrderUse.

Import semver resolver.

Lemma GT_trans_stable (a b c : Version) :
  isStable a = true -> isStable b = true -> isStable c = true ->
  GT a b = true -> GT b c = true -> GT a c = true.
Proof. intros Ha Hb Hc H1 H2. by_order. Qed.

Lemma notGT_GT_LT (x b v : Version) :
  isStable x = true -> isStable b = true -> isStable v = true ->
  GT x b = false -> GT v b = true -> LT x v = true.
Proof. intros Hx Hb Hv H1 H2. by_order. Qed.

Lemma GT_LT_stable (a b : Version) :
  isStable a = true -> isStable b = true -> GT a b = true -> LT b a = true.
Proof. intros Ha Hb H. by_order. Qed.

End SemverOrderUse.

(** ** The stable-client scan *)
Section StableScan.

Import semver docker resolver.

Variable E : Env.
Variable cliV : Version.

Lemma notOlder_cons (tag : string) (tags : list string) :
  notOlder E cliV (tag :: tags) =
  match ParseTolerant E tag with
  | inr v => if isStable v && negb (LT v cliV)
             then v :: notOlder E cliV tags else notOlder E cliV tags
  | inl _ => notOlder E cliV tags
  end.
Proof.
  unfold notOlder, stableTags, parsedTags. simpl.
  destruct (ParseTolerant E tag) as [err|v]; simpl; [reflexivity|].
  destruct (isStable v); simpl; [|reflexivity].
  destruct (LT v cliV); reflexivity.
Qed.

Lemma notOlder_stable (tags : list string) (v : Version) :
  In v (notOlder E cliV tags) -> isStable v = true.
Proof.
  unfold notOlder, stableTags. intros H.
  apply filter_In in H as [H _]. apply filter_In in H as [_ H]. exact H.
Qed.

Lemma remainder_stable (tags : list string) (v : Version) :
  In v (remainder E cliV tags) -> isStable v = true.
Proof.
  unfold remainder. intros H. apply filter_In in H as [H _].
  eapply notOlder_stable; eassumption.
Qed.

(** The scan keeps the greatest of the remainder and raises the flag when a
    breaking version is present. *)
Lemma stable_scan (tags : list string) (st : Version * bool) :
  breakingV cliV = boundary cliV ->
  fold_left (stableStep E cliV) tags st =
  (fold_left keepGreater (remainder E cliV tags) (fst st),
   snd st || breakingFlag E cliV tags).
Proof.
  intros Hb. revert st.
  induction tags as [|tag tags IH]; intros [newestV flag].
  - unfold remainder, breakingFlag, notOlder, stableTags, parsedTags; simpl.
    now rewrite orb_false_r.
  - cbn [fold_left]. rewrite IH.
    unfold remainder, breakingFlag. rewrite notOlder_cons.
    unfold stableStep. destruct (ParseTolerant E tag) as [err|v];
      [reflexivity|].
    rewrite isStable_length. rewrite Hb.
    destruct (isStable v); simpl; [|reflexivity].
    destruct (LT v cliV); simpl; [reflexivity|].
    change (GTE v (boundary cliV)) with (breaks cliV v).
    destruct (breaks cliV v); simpl.
    + now rewrite orb_true_r.
    + unfold keepGreater. destruct (GT v newestV); reflexivity.
Qed.

End StableScan.

Section KeepGreater.

Import semver resolver.

(** What [fold_left keepGreater l b] is: [b] when nothing in [l] exceeds it,
    else the first element of [l] that none exceeds. *)
Lemma keepGreater_fold (l : list Version) :
  Forall (fun v => isStable v = true) l ->
  forall b, isStable b = true ->
    (fold_left keepGreater l b = b /\ forall v, In v l -> GT v b = false)
    \/ (GT (fold_left keepGreater l b) b = true
        /\ exists pre post,
             l = (pre ++ fold_left keepGreater l b :: post)%list
             /\ (forall x, In x pre -> LT x (fold_left keepGreater l b) = true)
             /\ (forall x, In x post ->
                   GT x (fold_left keepGreater l b) = false)).
Proof.
  induction 1 as [|v l Hv Hl IH]; intros b Hb; cbn [fold_left].
  - left; split; [reflexivity|intros v []].
  - change (keepGreater b v) with (if GT v b then v else b).
    destruct (GT v b) eqn:Hgt.
    + right. destruct (IH v Hv) as [[Hr Hall]|[Hr (pre & post & Hl' & Hpre & Hpost)]].
      * rewrite Hr. split; [exact Hgt|].
        exists [], l. repeat split; [intros x []|exact Hall].
      * assert (Hrs : isStable (fold_left keepGreater l v) = true).
        { rewrite Forall_forall in Hl. apply Hl. rewrite Hl' at 2.
          apply in_or_app; right; left; reflexivity. }
        split; [now apply (GT_trans_stable _ v b)|].
        exists (v :: pre), post. split; [simpl; congruence|].
        split; [|exact Hpost].
        intros x [<-|Hx]; [|auto]. now apply GT_LT_stable.
    + destruct (IH b Hb) as [[Hr Hall]|[Hr (pre & post & Hl' & Hpre & Hpost)]].
      * left. split; [exact Hr|]. intros x [<-|Hx]; auto.
      * assert (Hrs : isStable (fold_left keepGreater l b) = true).
        { rewrite Forall_forall in Hl. apply Hl. rewrite Hl' at 2.
          apply in_or_app; right; left; reflexivity. }
        right. split; [exact Hr|].
        exists (v :: pre), post. split; [simpl; congruence|].
        split; [|exact Hpost].
        intros x [<-|Hx]; [|auto]. now apply (notGT_GT_LT _ b).
Qed.

End KeepGreater.

(** ** GetCompatibleTag for a stable client *)
Section StableClient.

Import semver docker resolver.

Lemma breakingV_boundary (cliV : Version) :
  noOverflow cliV -> breakingV cliV = boundary cliV.
Proof.
  unfold noOverflow, breakingV, boundary, uint64_add.
  destruct (1 <=? Major cliV)%N; intros H; rewrite N.mod_small by exact H;
    reflexivity.
Qed.

Lemma Equals_zero_stable (v : Version) :
  isStable v = true -> Equals v zero = negb (GT v zero).
Proof.
  intros Hv. assert (Hz : isStable zero = true) by reflexivity.
  destruct (Compare_stable v zero Hv Hz) as [[H _]|[[H _]|[H Hlt]]];
    unfold Equals, GT; rewrite H; try reflexivity.
  unfold numLt in Hlt; simpl in Hlt; lia.
Qed.

Lemma skips_short_circuit (currentVersion : string) :
  currentVersion <> "" -> currentVersion <> "dev" ->
  (currentVersion =? "")%string || (currentVersion =? "dev")%string = false.
Proof.
  intros H1 H2. apply String.eqb_neq in H1, H2. now rewrite H1, H2.
Qed.

Variable E : Env.
Variables image currentVersion : string.
Variable cliV : Version.
Variable tags : list string.
Variables h h' : list Request.

Hypothesis notEmpty : currentVersion <> "".
Hypothesis notDev : currentVersion <> "dev".
Hypothesis parses : ParseTolerant E currentVersion = inr cliV.
Hypothesis stable : Pre cliV = [].
Hypothesis inRange : noOverflow cliV.
Hypothesis listed : getTags E image h = (inr tags, h').

Let newest : Version := fold_left keepGreater (remainder E cliV tags) zero.

Lemma getCompatibleTag_newest :
  getCompatibleTag E tags cliV = (newest, breakingFlag E cliV tags).
Proof.
  unfold getCompatibleTag.
  rewrite stable_scan by (apply breakingV_boundary; exact inRange).
  reflexivity.
Qed.

Lemma newest_strictMaximum : strictMaximum (remainder E cliV tags) newest.
Proof.
  assert (Hall : Forall (fun v => isStable v = true) (remainder E cliV tags)).
  { apply Forall_forall. intros v. apply remainder_stable. }
  destruct (keepGreater_fold _ Hall zero eq_refl) as [[Hr Hno]|[Hr Hex]].
  - left. split; assumption.
  - right. split; assumption.
Qed.

Lemma newest_stable : isStable newest = true.
Proof.
  destruct newest_strictMaximum as [[-> _]|[_ (pre & post & Hl & _)]];
    [reflexivity|].
  apply (remainder_stable E cliV tags). rewrite Hl.
  apply in_or_app; right; left; reflexivity.
Qed.

Lemma GetCompatibleTag_stable :
  GetCompatibleTag E image currentVersion h =
  (if GT newest zero
   then ("v" ++ String newest, breakingFlag E cliV tags, None)
   else ("", false, Some (notFound image)), h').
Proof.
  unfold GetCompatibleTag.
  rewrite skips_short_circuit by assumption.
  rewrite parses. unfold bind. rewrite listed.
  rewrite stable. cbn [List.length Nat.ltb Nat.leb].
  rewrite getCompatibleTag_newest.
  rewrite (Equals_zero_stable _ newest_stable).
  destruct (GT newest zero); reflexivity.
Qed.

(** C1, as amended.  For a stable current version whose boundary increment
    stays within [uint64]: the scan of [getCompatibleTag] selects the strict
    maximum of the remainder (the tags that parse, carry no pre-release, are
    not below the current version and are below the breaking boundary), and
    its flag says whether a tag at or above the boundary is present;
    [GetCompatibleTag] returns that maximum prefixed with "v", together with
    the flag, when the maximum is above 0.0.0, and the not-found error
    otherwise. *)
Theorem stable_client_selection :
  exists newestV,
    getCompatibleTag E tags cliV = (newestV, breakingFlag E cliV tags)
    /\ strictMaximum (remainder E cliV tags) newestV
    /\ GetCompatibleTag E image currentVersion h =
       (if GT newestV zero
        then ("v" ++ String newestV, breakingFlag E cliV tags, None)
        else ("", false, Some (notFound image)), h').
Proof.
  exists newest. split; [exact getCompatibleTag_newest|].
  split; [exact newest_strictMaximum|exact GetCompatibleTag_stable].
Qed.


End StableClient.

(** ** GetCompatibleTag for a pre-release client *)
Section PreReleaseClient.

Import semver docker resolver.

Lemma GT_not_Equals (v o : Version) : GT v o = true -> Equals v o = false.
Proof.
  unfold GT, Equals. intros H. apply Z.eqb_eq in H. now rewrite H.
Qed.

Lemma Equals_not_GT (v o : Version) : Equals v o = true -> GT v o = false.
Proof.
  unfold GT, Equals. intros H. apply Z.eqb_eq in H. now rewrite H.
Qed.

Lemma prerelease_not_zero (v : Version) : Pre v <> [] -> Equals v zero = false.
Proof.
  intros Hpre. unfold Equals, Compare. simpl.
  destruct (Major v =? 0)%N; simpl; [|destruct (0 <? Major v)%N; reflexivity].
  destruct (Minor v =? 0)%N; simpl; [|destruct (0 <? Minor v)%N; reflexivity].
  destruct (Patch v =? 0)%N; simpl; [|destruct (0 <? Patch v)%N; reflexivity].
  destruct (Pre v); [congruence|reflexivity].
Qed.

Variable E : Env.
Variable cliV : Version.

(** The scan keeps the current version once a tag equals it and raises the
    flag when a greater version is present. *)
Lemma pre_scan (tags : list string) (st : Version * bool) :
  fold_left (preStep E cliV) tags st =
  (if exactMatch E cliV tags then cliV else fst st,
   snd st || newerPresent E cliV tags).
Proof.
  revert st. induction tags as [|tag tags IH]; intros [newestV flag].
  - unfold exactMatch, newerPresent; simpl. now rewrite orb_false_r.
  - cbn [fold_left]. rewrite IH. unfold exactMatch, newerPresent, parsedTags.
    cbn [flat_map]. unfold preStep.
    destruct (ParseTolerant E tag) as [err|v]; [reflexivity|].
    cbn [app existsb].
    destruct (Equals v cliV) eqn:Heq.
    + rewrite (Equals_not_GT _ _ Heq). simpl.
      destruct (existsb _ _); reflexivity.
    + destruct (LT v cliV) eqn:Hlt.
      * assert (Hgt : GT v cliV = false).
        { unfold LT, GT in *. apply Z.eqb_eq in Hlt. now rewrite Hlt. }
        rewrite Hgt. reflexivity.
      * destruct (GT v cliV); simpl; [|reflexivity].
        now rewrite orb_true_r.
Qed.

Variables image currentVersion : string.
Variable tags : list string.
Variables h h' : list Request.

Hypothesis notEmpty : currentVersion <> "".
Hypothesis notDev : currentVersion <> "dev".
Hypothesis parses : ParseTolerant E currentVersion = inr cliV.
Hypothesis prerelease : Pre cliV <> [].
Hypothesis listed : getTags E image h = (inr tags, h').


End PreReleaseClient.

(** ** GetCompatibleTag and the registry *)
Section Registry.

Import semver docker resolver.

Variable E : Env.
Variable image : string.
Variable h : list Request.

Lemma getTags_fails :
  registryFails E image h ->
  exists err h', getTags E image h = (inl err, h').
Proof.
  intros H. unfold getTags, bind, Get, Do, ret, StatusOK.
  destruct H as [err H1|r H1 H2|r err H1 H2|r token err H1 H2 H3 H4
                |r r' token H1 H2 H3 H4 H5|r r' token err H1 H2 H3 H4];
    rewrite H1.
  - eauto.
  - apply Z.eqb_neq in H2. rewrite H2. simpl. eauto.
  - destruct (StatusCode r =? 200)%Z; simpl; [rewrite H2|]; eauto.
  - apply Z.eqb_eq in H2. rewrite H2. simpl. rewrite H3, H4. eauto.
  - apply Z.eqb_eq in H2. rewrite H2. simpl. rewrite H3, H4.
    apply Z.eqb_neq in H5. rewrite H5. simpl. eauto.
  - destruct (StatusCode r =? 200)%Z; simpl; [|eauto].
    rewrite H2, H3.
    destruct (StatusCode r' =? 200)%Z; simpl; [rewrite H4|]; eauto.
Qed.


(** C8.  With an empty current version or with "dev", [GetCompatibleTag]
    returns the tag "latest", the flag false and no error, whatever the
    image and the registry, and makes no request. *)
Theorem short_circuit_latest :
  GetCompatibleTag E image "" h = ("latest", false, None, h)
  /\ GetCompatibleTag E image "dev" h = ("latest", false, None, h).
Proof. split; reflexivity. Qed.

End Registry.

(** ** The readiness wait *)
Section Readiness.

Import cmd readiness.

Variable T : Timeline.

Lemma startOf_mono (i n : nat) :
  (i <= n)%nat -> (startOf T i <= startOf T n)%N.
Proof.
  induction 1 as [|n Hle IH]; [lia|]. cbn [startOf]. lia.
Qed.

Lemma firstSuccess_unique (n m : nat) :
  firstSuccess T n -> firstSuccess T m -> n = m.
Proof.
  intros [Hn Hbn] [Hm Hbm].
  destruct (Nat.lt_trichotomy n m) as [Hlt|[Heq|Hlt]]; [|exact Heq|].
  - destruct (Hbm n Hlt Hn).
  - destruct (Hbn m Hlt Hm).
Qed.

(** The loop, started at the [i]-th call after [i] failures, with fuel for
    the time that is left. *)
Lemma probeLoop_spec (fuel : nat) :
  forall (i : nat) (now : Duration),
    now = startOf T i ->
    (forall j, (j < i)%nat -> snd (ping T j) <> None) ->
    (globalTimeout < now + N.of_nat fuel * sleep)%N ->
    match probeLoop T fuel i now with
    | None => False
    | Some None =>
        forall n, firstSuccess T n -> (globalTimeout < startOf T n)%N
    | Some (Some t) => exists n, firstSuccess T n /\ t = finishOf T n
    end.
Proof.
  assert (Hexpired : forall i now,
            now = startOf T i ->
            (forall j, (j < i)%nat -> snd (ping T j) <> None) ->
            (globalTimeout < now)%N ->
            forall n, firstSuccess T n -> (globalTimeout < startOf T n)%N).
  { intros i now Hnow Hfail Hlt n [Hn _].
    destruct (Nat.lt_ge_cases n i) as [Hni|Hin]; [destruct (Hfail n Hni Hn)|].
    pose proof (startOf_mono i n Hin). lia. }
  induction fuel as [|fuel IH]; intros i now Hnow Hfail Hfuel.
  - cbn [probeLoop]. destruct (N.ltb_spec globalTimeout now); [|lia].
    eapply Hexpired; eassumption.
  - cbn [probeLoop]. destruct (N.ltb_spec globalTimeout now) as [Hlt|Hge].
    { eapply Hexpired; eassumption. }
    destruct (ping T i) as [d [err|]] eqn:Hping.
    + apply IH.
      * cbn [startOf]. rewrite Hping. cbn [fst]. lia.
      * intros j Hj. destruct (Nat.eq_dec j i) as [->|Hne].
        -- rewrite Hping. discriminate.
        -- apply Hfail. lia.
      * unfold sleep, Second in *. lia.
    + exists i. split.
      * split; [now rewrite Hping|exact Hfail].
      * unfold finishOf. rewrite Hping. cbn [fst]. lia.
Qed.

Lemma ensureConnReady_cases :
  (ensureConnReady T = Some None
   /\ exists n, firstSuccess T n /\ beforeDeadline T n)
  \/ (ensureConnReady T = Some (Some errGlobalTimeout)
      /\ ~ exists n, firstSuccess T n /\ beforeDeadline T n).
Proof.
  unfold ensureConnReady.
  assert (Hfuel : (globalTimeout < 0 + N.of_nat rounds * sleep)%N)
    by (vm_compute; reflexivity).
  pose proof (probeLoop_spec rounds 0 0%N eq_refl
                ltac:(intros j Hj; inversion Hj) Hfuel) as Hspec.
  destruct (probeLoop T rounds 0 0%N) as [[t|]|]; [| |destruct Hspec].
  - destruct Hspec as (n & Hn & Ht).
    assert (Hother : forall m, firstSuccess T m -> finishOf T m = t).
    { intros m Hm. now rewrite (firstSuccess_unique m n Hm Hn). }
    destruct (N.ltb_spec t globalTimeout) as [Hlt|Hge].
    { left. split; [reflexivity|]. exists n. split; [exact Hn|].
      left. lia. }
    destruct (N.ltb_spec globalTimeout t) as [Hgt|Hle].
    { right. split; [reflexivity|]. intros (m & Hm & Hb).
      apply Hother in Hm. destruct Hb as [Hb|[Hb _]]; lia. }
    destruct (doneFirst T) eqn:Hd.
    + left. split; [reflexivity|]. exists n. split; [exact Hn|].
      right. split; [lia|exact Hd].
    + right. split; [reflexivity|]. intros (m & Hm & Hb).
      apply Hother in Hm. destruct Hb as [Hb|[_ Hb]]; [lia|congruence].
  - right. split; [reflexivity|]. intros (m & Hm & Hb).
    pose proof (Hspec m Hm) as Hstart. unfold beforeDeadline, finishOf in Hb.
    destruct Hb as [Hb|[Hb _]]; lia.
Qed.

End Readiness.

Section ReadinessErrors.

Import cmd readiness.

Variables T T' : Timeline.
Hypothesis same : sameButErrors T T'.

Lemma sameButErrors_startOf (n : nat) : startOf T n = startOf T' n.
Proof.
  induction n as [|n IH]; [reflexivity|]. cbn [startOf].
  destruct same as [_ Hs]. destruct (Hs n) as [-> _]. now rewrite IH.
Qed.

Lemma sameButErrors_success (n : nat) :
  firstSuccess T n /\ beforeDeadline T n ->
  firstSuccess T' n /\ beforeDeadline T' n.
Proof.
  destruct same as [Hd Hs]. intros [[Hn Hb] Hbefore]. split.
  - split; [now apply Hs|]. intros i Hi Hnone. apply (Hb i Hi). now apply Hs.
  - unfold beforeDeadline, finishOf in *.
    rewrite <- sameButErrors_startOf, <- Hd.
    destruct (Hs n) as [<- _]. exact Hbefore.
Qed.

End ReadinessErrors.

Lemma sameButErrors_sym (T T' : cmd.Timeline) :
  readiness.sameButErrors T T' -> readiness.sameButErrors T' T.
Proof.
  intros [Hd Hs]. split; [now symmetry|].
  intros i. destruct (Hs i) as [H1 H2]. split; [now symmetry|now symmetry].
Qed.


(** ** The attach machine *)
Section Attach.

Import cmd attach.

Variable T : Term.

Ltac step_cases H :=
  repeat match type of H with
         | context [match ?x with _ => _ end] =>
             destruct x eqn:?; try discriminate H
         | context [if ?x then _ else _] =>
             destruct x eqn:?; try discriminate H
         end;
  try (injection H as <-).

Ltac saturate :=
  repeat match goal with
         | H : ?a = ?a -> _ |- _ => specialize (H eq_refl)
         | H : ?a = ?a \/ _ -> _ |- _ => specialize (H (or_introl eq_refl))
         | H : _ \/ ?a = ?a -> _ |- _ => specialize (H (or_intror eq_refl))
         | H : forall e, ?c ?x = ?c e -> _ |- _ => specialize (H _ eq_refl)
         | H : ?x = ?y -> _, H' : ?x = ?y |- _ => specialize (H H')
         | H : ?x = ?y \/ _ -> _, H' : ?x = ?y |- _ =>
             specialize (H (or_introl H'))
         | H : _ \/ ?x = ?y -> _, H' : ?x = ?y |- _ =>
             specialize (H (or_intror H'))
         | H : forall r, ?x = Some r -> _, H' : ?x = Some _ |- _ =>
             pose proof (H _ H'); clear H
         | H : _ /\ _ |- _ => destruct H
         | H : exists _, _ |- _ => destruct H
         | H : _ \/ _ |- _ => destruct H
         | H : Some _ = Some _ |- _ => injection H as H; subst
         | H : Returning _ = Returning _ |- _ => injection H as H; subst
         | H : Returned _ = Returned _ |- _ => injection H as H; subst
         end.

Lemma coherent_init : coherent T init.
Proof.
  unfold coherent, init; simpl.
  repeat split; intros; saturate; try discriminate; auto.
Qed.

Lemma coherent_next (s s' : state) (e : step) :
  coherent T s -> next T s e = Some s' -> coherent T s'.
Proof.
  intros HI H. destruct s as [m o i d w oe ie tk rs].
  unfold next in H. destruct e; step_cases H;
    unfold coherent in *; simpl in *;
    destruct HI as (I0 & I1 & I2 & I3 & I4 & I5 & I6 & I7 & I8 & I9 & I10
                    & I11 & I12);
    subst; saturate.
  all: repeat split; intros; subst; saturate; try discriminate; auto.
  all: try congruence.
  all: try (eexists; split; [first [eassumption|reflexivity]|];
            intros; saturate; subst; simpl; try discriminate; auto;
            try congruence).
  all: try match goal with
           | |- match ?x with _ => _ end => destruct x
           end; saturate; try congruence.
Qed.

Lemma coherent_exec (tr : list step) :
  forall s s', coherent T s -> exec T s tr = Some s' -> coherent T s'.
Proof.
  induction tr as [|e tr IH]; intros s s' HI H; cbn [exec] in H.
  - now injection H as <-.
  - destruct (next T s e) as [s1|] eqn:Hn; [|discriminate].
    eapply IH; [|exact H]. eapply coherent_next; eassumption.
Qed.

Lemma restoring_next (s s' : state) (e : step) :
  isTerminal T = true -> SetRawTerminal T = None ->
  restoring T s -> next T s e = Some s' -> restoring T s'.
Proof.
  intros Ht Hraw HI H. destruct s as [m o i d w oe ie tk rs].
  unfold next in H. rewrite ?Ht, ?Hraw in H.
  destruct e; step_cases H; unfold restoring in *; simpl in *;
    destruct HI as [R1 R2]; subst.
  all: try (assert (Hd : false = true) by (apply R1; eauto 6);
            discriminate Hd).
  all: split; [intros Hm|intros r Hr].
  all: try discriminate; try reflexivity.
  all: try (apply R1; exact Hm); try (apply R2; exact Hr).
  all: try (apply R1; eauto 6).
  all: try (destruct Hm as [Hm|[Hm|[r Hm]]]; discriminate).
  all: try (injection Hr as <-; reflexivity).
Qed.

Lemma restoring_exec (tr : list step) :
  isTerminal T = true -> SetRawTerminal T = None ->
  forall s s', restoring T s -> exec T s tr = Some s' -> restoring T s'.
Proof.
  intros Ht Hraw.
  induction tr as [|e tr IH]; intros s s' HI H; cbn [exec] in H.
  - now injection H as <-.
  - destruct (next T s e) as [s1|] eqn:Hn; [|discriminate].
    eapply IH; [|exact H]. eapply restoring_next; eassumption.
Qed.

(** C4, as amended.  In every state the call and its goroutines reach: a
    call that is back in its caller has executed a [return] statement, whose
    value the caller gets when standard input is no terminal; when the
    [select] took [outputDone], the value of the [return] statement is the
    result of the output loop; when it took [inputDone], the write side has
    been closed, and then, if the input loop ended with nil, a [return]
    statement is executed only once the output loop has ended and has the
    result of the output loop as its value, while if the input loop ended
    with an error, the value of the [return] statement is that error. *)
Theorem attach_teardown (tr : list step) (s : state) :
  exec T init tr = Some s ->
  (forall r', mainG s = Returned r' ->
     exists r, returnStmt s = Some r /\ (isTerminal T = false -> r' = r))
  /\ (taken s = Some outputDone ->
      forall r, returnStmt s = Some r -> outputErr s = Some r)
  /\ (taken s = Some inputDone ->
      writeClosed s = true
      /\ exists e, inputErr s = Some e
                   /\ forall r, returnStmt s = Some r ->
                                match e with
                                | None => outputErr s = Some r
                                | Some _ => r = e
                                end).
Proof.
  intros H. pose proof (coherent_exec tr init s coherent_init H) as HI.
  destruct HI as (_ & _ & _ & _ & _ & _ & _ & _ & _ & _ & I10 & I11 & I12).
  auto.
Qed.

(** C9.  When standard input is a terminal and the switch to raw mode
    succeeds, what the call returns to its caller is the result of the
    deferred [RestoreTerminal], whatever the copy loops returned; and for
    every error there is a run in which the output loop ends with that
    error and the call returns the result of [RestoreTerminal]. *)
Theorem deferred_restore_decides :
  isTerminal T = true -> SetRawTerminal T = None ->
  (forall tr s r,
     exec T init tr = Some s -> mainG s = Returned r ->
     r = RestoreTerminal T)
  /\ (forall err, exists tr s,
        exec T init tr = Some s
        /\ outputErr s = Some (Some err)
        /\ mainG s = Returned (RestoreTerminal T)).
Proof.
  intros Ht Hraw. split.
  - intros tr s r H Hr.
    assert (Hinit : restoring T init).
    { split; [|intros r0 Hr0; discriminate].
      intros [H0|[H0|[r0 H0]]]; discriminate. }
    destruct (restoring_exec tr Ht Hraw init s Hinit H) as [_ R2]. auto.
  - intros err.
    exists [Enter; OutputCopyEnds (Some err); SelectOutputDone; Leave].
    eexists. cbn [exec next init]. rewrite Ht, Hraw. cbn.
    split; [reflexivity|]. split; reflexivity.
Qed.

End Attach.

Lemma attach_teardown_witness :
  let T := cmd.mkTerm false None None in
  let tr := [cmd.Enter; cmd.InputCopyEnds None; cmd.InputCloseWrite;
             cmd.SelectInputDone; cmd.OutputCopyEnds (Some (New "EOF"));
             cmd.RecvOutputDone; cmd.Leave] in
  exists s,
    cmd.exec T cmd.init tr = Some s
    /\ cmd.mainG s = cmd.Returned (Some (New "EOF"))
    /\ cmd.taken s = Some cmd.inputDone
    /\ (cmd.writeClosed s = true
        /\ exists e, cmd.inputErr s = Some e
                     /\ forall r, cmd.returnStmt s = Some r ->
                                  match e with
                                  | None => cmd.outputErr s = Some r
                                  | Some _ => r = e
                                  end).
Proof.
  intros T tr. eexists. split; [reflexivity|].
  split; [reflexivity|]. split; [reflexivity|].
  apply (attach_teardown T tr); reflexivity.
Defined.

(** Against C4 as stated: the input loop ends first with an error, the
    [select] takes [inputDone], and the call is back in its caller while the
    output loop is still copying. *)
Lemma attach_returns_before_output_ends :
  let T := cmd.mkTerm false None None in
  let tr := [cmd.Enter; cmd.InputCopyEnds (Some (New "read error"));
             cmd.InputCloseWrite; cmd.SelectInputDone; cmd.Leave] in
  exists s,
    cmd.exec T cmd.init tr = Some s
    /\ cmd.taken s = Some cmd.inputDone
    /\ cmd.mainG s = cmd.Returned (Some (New "read error"))
    /\ cmd.outputG s = cmd.OutCopying
    /\ cmd.outputErr s = None.
Proof.
  intros T tr. eexists. split; [reflexivity|]. repeat split.
Qed.

Lemma deferred_restore_decides_witness :
  let T := cmd.mkTerm true None None in
  let err := Some (New "broken pipe") in
  let tr := [cmd.Enter; cmd.OutputCopyEnds err; cmd.SelectOutputDone;
             cmd.Leave] in
  let s := cmd.mkState (cmd.Returned None) cmd.OutClosing cmd.InCopying
             false false (Some err) None (Some cmd.outputDone) (Some err) in
  cmd.isTerminal T = true /\ cmd.SetRawTerminal T = None
  /\ cmd.exec T cmd.init tr = Some s
  /\ cmd.mainG s = cmd.Returned None
  /\ None = cmd.RestoreTerminal T.
Proof.
  intros T err tr s. split; [reflexivity|]. split; [reflexivity|].
  split; [reflexivity|]. split; [reflexivity|].
  exact (proj1 (deferred_restore_decides T eq_refl eq_refl) tr s None
           eq_refl eq_refl).
Defined.

(** ** The helper goroutine of pingDB *)

(** C10, evaluated on the code.  When [client.SQL] returns an error and
    [pingDB] is still waiting, the goroutine sends the error and goes on to
    call [Recv] on the stream: on a nil stream it stops there, dereferencing
    nil; on a stream whose [Recv] fails it starts a second send, which nobody
    receives.  A [Recv] that fails after a successful [client.SQL] is also
    followed by two sends. *)
Theorem pingDB_goroutine_after_error (err err' : error) :
  cmd.runHelper (cmd.mkClient None (Some err)) true =
    ([cmd.CallSQL; cmd.Sent (Some err); cmd.CallRecv], cmd.Panicked)
  /\ cmd.runHelper (cmd.mkClient (Some (Some err')) (Some err)) true =
       ([cmd.CallSQL; cmd.Sent (Some err); cmd.CallRecv;
         cmd.SendBlocked (Some err')], cmd.Blocked)
  /\ cmd.runHelper (cmd.mkClient (Some (Some err')) None) true =
       ([cmd.CallSQL; cmd.CallRecv; cmd.Sent (Some err');
         cmd.SendBlocked None], cmd.Blocked)
  /\ (forall stream,
        cmd.callsRecv
          (fst (cmd.runHelper (cmd.mkClient stream (Some err)) true)) = true)
  /\ cmd.sends
       (fst (cmd.runHelper (cmd.mkClient (Some (Some err')) (Some err)) true))
     = 2%nat.
Proof.
  repeat split. intros [[e|]|]; reflexivity.
Qed.

(** On the path without errors the goroutine sends once and returns. *)
Lemma pingDB_goroutine_success :
  cmd.runHelper (cmd.mkClient (Some None) None) true =
    ([cmd.CallSQL; cmd.CallRecv; cmd.Sent None], cmd.Exited).
Proof. reflexivity. Qed.

(** ** sqlCmd.Execute with a query *)
Section OneShot.

Import cmd.

Variable w : World.
Variables Query query : string.

Hypothesis client : daemon_Client w = None.
Hypothesis started : startGitbaseWithClient w = None.
Hypothesis ready : connReady w = None.
Hypothesis asked : readQuery w Query = inr query.
Hypothesis oneShot : query <> "".
Hypothesis running : runMysqlCli w query = None.

Lemma Execute_one_shot :
  Execute w Query [] =
  match copyToStdout w with
  | Some err => Some err
  | None =>
      if (exit w =? 0)%Z then None
      else Some (New ("MySQL exited with status " ++ itoa (exit w)))
  end.
Proof.
  unfold Execute. cbn [List.length Nat.ltb Nat.leb].
  rewrite client, started, ready, asked, running.
  apply String.eqb_neq in oneShot. rewrite oneShot. cbn [negb].
  destruct (copyToStdout w); [reflexivity|].
  destruct (exit w =? 0)%Z; reflexivity.
Qed.


End OneShot.

(** ** The theorems at concrete inputs *)

Lemma stable_client_selection_witness :
  let tags := ["1.2.1"; "1.3.0"; "2.0.0"] in
  let E := docker.fixedRegistry tags in
  let cliV := semver.mkVersion 1 2 0 [] [] in
  "1.2.0" <> "" /\ "1.2.0" <> "dev"
  /\ docker.ParseTolerant E "1.2.0" = inr cliV
  /\ semver.Pre cliV = []
  /\ resolver.noOverflow cliV
  /\ docker.getTags E "img" [] = (inr tags, docker.twoRequests "img")
  /\ exists newestV,
       docker.getCompatibleTag E tags cliV =
         (newestV, resolver.breakingFlag E cliV tags)
       /\ resolver.strictMaximum (resolver.remainder E cliV tags) newestV
       /\ docker.GetCompatibleTag E "img" "1.2.0" [] =
          (if semver.GT newestV semver.zero
           then ("v" ++ semver.String newestV,
                 resolver.breakingFlag E cliV tags, None)
           else ("", false, Some (docker.notFound "img")),
           docker.twoRequests "img").
Proof.
  intros tags E cliV.
  assert (H1 : "1.2.0" <> "") by discriminate.
  assert (H2 : "1.2.0" <> "dev") by discriminate.
  assert (H3 : docker.ParseTolerant E "1.2.0" = inr cliV) by reflexivity.
  assert (H4 : semver.Pre cliV = []) by reflexivity.
  assert (H5 : resolver.noOverflow cliV) by reflexivity.
  assert (H6 : docker.getTags E "img" [] =
               (inr tags, docker.twoRequests "img")) by reflexivity.
  repeat (split; [assumption|]).
  exact (stable_client_selection E "img" "1.2.0" cliV tags []
           (docker.twoRequests "img") H1 H2 H3 H4 H5 H6).
Defined.

(** Against C1 as stated: with the current version 0.0.0 and the only tag
    0.0.0 the remainder is that version, no tag is breaking, and the call
    returns the not-found error instead of "v0.0.0". *)
Lemma stable_zero_not_returned :
  let tags := ["0.0.0"] in
  let E := docker.fixedRegistry tags in
  let cliV := semver.mkVersion 0 0 0 [] [] in
  docker.ParseTolerant E "0.0.0" = inr cliV
  /\ resolver.remainder E cliV tags = [cliV]
  /\ semver.String cliV = "0.0.0"
  /\ fst (docker.GetCompatibleTag E "img" "0.0.0" []) =
     ("", false, Some (docker.notFound "img")).
Proof. repeat split. Qed.







(** ** The examples of the specification, and two boundary cases *)

Example resolver_examples :
  fst (docker.GetCompatibleTag
         (docker.fixedRegistry ["1.2.1"; "1.3.0"; "2.0.0"]) "img" "1.2.0" [])
  = ("v1.3.0", true, None)
  /\ fst (docker.GetCompatibleTag
            (docker.fixedRegistry ["0.5.1"; "0.6.0"]) "img" "0.5.0" [])
     = ("v0.5.1", true, None)
  /\ fst (docker.GetCompatibleTag
            (docker.fixedRegistry ["1.0.0-beta.1"; "1.0.0"]) "img"
            "1.0.0-beta.1" [])
     = ("v1.0.0-beta.1", true, None)
  /\ fst (docker.GetCompatibleTag
            (docker.fixedRegistry ["1.0.0"]) "img" "1.0.0-beta.1" [])
     = ("", false, Some (docker.notFound "img"))
  /\ fst (docker.GetCompatibleTag
            (docker.fixedRegistry ["2.0.0"]) "img" "1.0.0" [])
     = ("", false, Some (docker.notFound "img"))
  /\ docker.getCompatibleTag (docker.fixedRegistry []) ["2.0.0"]
       (semver.mkVersion 1 0 0 [] [])
     = (semver.zero, true).
Proof. repeat split. Qed.

(** At the largest major number the increment wraps around: the breaking
    version of the code is 0.0.0, every tag is breaking, and the tag equal
    to the current version, which is below the boundary of the
    specification, is not selected. *)
Example boundary_wraps :
  let cur := "18446744073709551615.0.0" in
  let E := docker.fixedRegistry [cur] in
  let cliV := semver.mkVersion 18446744073709551615 0 0 [] [] in
  docker.ParseTolerant E cur = inr cliV
  /\ docker.breakingV cliV = semver.zero
  /\ resolver.remainder E cliV [cur] = [cliV]
  /\ docker.getCompatibleTag E [cur] cliV = (semver.zero, true)
  /\ fst (docker.GetCompatibleTag E "img" cur []) =
     ("", false, Some (docker.notFound "img")).
Proof. vm_compute. repeat split. Qed.

Example readiness_examples :
  cmd.ensureConnReady
    (cmd.mkTimeline (fun _ => (cmd.Second, Some (New "refused"))) true)
  = Some (Some cmd.errGlobalTimeout)
  /\ cmd.ensureConnReady
       (cmd.mkTimeline
          (fun i => (cmd.Second,
                     if (i <? 3)%nat then Some (New "refused") else None))
          false)
     = Some None.
Proof. vm_compute. split; reflexivity. Qed.

Example ParseTolerant_examples :
  semver.ParseTolerant "v1.2" = inr (semver.mkVersion 1 2 0 [] [])
  /\ semver.ParseTolerant " 0.5.1 " = inr (semver.mkVersion 0 5 1 [] [])
  /\ semver.ParseTolerant "1.0.0-beta.1+b7" =
       inr (semver.mkVersion 1 0 0
              [semver.mkPRVersion "beta" 0 false; semver.mkPRVersion "" 1 true] ["b7"])
  /\ semver.ParseTolerant "18446744073709551615.0.0" =
       inr (semver.mkVersion 18446744073709551615 0 0 [] [])
  /\ (exists e, semver.ParseTolerant "18446744073709551616.0.0" = inl e)
  /\ (exists e, semver.ParseTolerant "latest" = inl e)
  /\ (exists e, semver.ParseTolerant "01.2.3" = inl e)
  /\ (exists e, semver.ParseTolerant "1.2-rc" = inl e)
  /\ semver.String (semver.mkVersion 1 0 0
        [semver.mkPRVersion "beta" 0 false; semver.mkPRVersion "" 1 true] ["b7"])
      = "1.0.0-beta.1+b7".
Proof. vm_compute. repeat split; eexists; reflexivity. Qed.

(** ** More on the requests of getTags *)
Section GetTagsRequests.

Import docker resolver tagscan.

Lemma snoc_snoc {A : Type} (l : list A) (a b : A) :
  ((l ++ [a]) ++ [b] = l ++ [a; b])%list.
Proof. now rewrite <- app_assoc. Qed.

Variable E : Env.
Variable image : string.
Variable h : list Request.

(** X1.  When [getTags] succeeds, the token request was answered with
    status 200 and a body that decodes to a token, the tag-list request
    carried that token as bearer and was answered with status 200 and a body
    that decodes to the tags returned, and exactly these two requests were
    made, in this order. *)
Theorem getTags_success (tags : list string) (h' : list Request) :
  getTags E image h = (inr tags, h') ->
  exists r token r',
    RoundTrip E h (tokenRequest E image) = inr r
    /\ StatusCode r = 200%Z
    /\ decodeToken E (Body r) = inr token
    /\ RoundTrip E (h ++ [tokenRequest E image])%list
         (tagsRequest image token) = inr r'
    /\ StatusCode r' = 200%Z
    /\ decodeTags E (Body r') = inr tags
    /\ h' = (h ++ [tokenRequest E image; tagsRequest image token])%list.
Proof.
  unfold getTags, bind, Get, Do, ret, StatusOK, tokenRequest.
  destruct (RoundTrip E h _) as [err|r] eqn:H1; [discriminate|].
  destruct (Z.eqb_spec (StatusCode r) 200) as [Hs|Hs]; [|discriminate].
  cbn [negb].
  destruct (decodeToken E (Body r)) as [err|token] eqn:H2; [discriminate|].
  destruct (RoundTrip E _ (tagsRequest image token)) as [err|r'] eqn:H3;
    [discriminate|].
  destruct (Z.eqb_spec (StatusCode r') 200) as [Hs'|Hs']; [|discriminate].
  cbn [negb].
  destruct (decodeTags E (Body r')) as [err|tags0] eqn:H4; [discriminate|].
  intros H. injection H as <- <-.
  exists r, token, r'. repeat split; try assumption.
  apply snoc_snoc.
Qed.


(** X3.  [GetCompatibleTag] reaches the registry only with a current
    version that is neither empty nor "dev" and that parses; a version that
    does not parse gives the error of the parser, an empty tag and the flag
    false without any request, and otherwise the requests are those of
    [getTags]. *)
Theorem GetCompatibleTag_requests (currentVersion : string) :
  currentVersion <> "" -> currentVersion <> "dev" ->
  match ParseTolerant E currentVersion with
  | inl err =>
      GetCompatibleTag E image currentVersion h = ("", false, Some err, h)
  | inr _ =>
      snd (GetCompatibleTag E image currentVersion h) =
      snd (getTags E image h)
  end.
Proof.
  intros H1 H2. unfold GetCompatibleTag.
  rewrite skips_short_circuit by assumption.
  destruct (ParseTolerant E currentVersion) as [err|cliV]; [reflexivity|].
  unfold bind. destruct (getTags E image h) as [[err|tags] h'];
    [reflexivity|].
  destruct (if (0 <? List.length (semver.Pre cliV))%nat
            then getCompatibleTagForPre E tags cliV
            else getCompatibleTag E tags cliV) as [newestV flag].
  destruct (semver.Equals newestV semver.zero); reflexivity.
Qed.

End GetTagsRequests.

(** ** What the scans select, whatever the boundary and the order of tags *)
Section ScanFacts.

Import semver docker resolver tagscan.

Lemma PRVersion_Compare_refl (x : PRVersion) : PRVersion_Compare x x = 0%Z.
Proof.
  unfold PRVersion_Compare. destruct (IsNum x); cbn [andb negb].
  - now rewrite N.eqb_refl.
  - now rewrite String.eqb_refl.
Qed.

Lemma comparePre_refl (l : list PRVersion) : comparePre l l = 0%Z.
Proof.
  induction l as [|x l IH]; [reflexivity|]. cbn [comparePre].
  now rewrite PRVersion_Compare_refl.
Qed.

Lemma Compare_refl (v : Version) : Compare v v = 0%Z.
Proof.
  unfold Compare. rewrite !N.eqb_refl. cbn [negb].
  destruct (Pre v) as [|x l] eqn:Hp; [reflexivity|].
  cbn [List.length Nat.eqb Nat.ltb Nat.leb andb].
  apply comparePre_refl.
Qed.

Lemma existsb_same {A : Type} (f : A -> bool) (l l' : list A) :
  (forall x, In x l <-> In x l') -> existsb f l = existsb f l'.
Proof.
  intros H. apply eq_true_iff_eq. rewrite !existsb_exists.
  split; intros (x & Hx & Hf); exists x; split; try assumption; now apply H.
Qed.

Variable E : Env.
Variable cliV : Version.

Lemma parsedTags_In (tags : list string) (v : Version) :
  In v (parsedTags E tags) <->
  exists t, In t tags /\ ParseTolerant E t = inr v.
Proof.
  unfold parsedTags. rewrite in_flat_map. split.
  - intros (t & Ht & Hv). exists t. split; [exact Ht|].
    destruct (ParseTolerant E t) as [err|v']; [destruct Hv|].
    destruct Hv as [->|[]]. reflexivity.
  - intros (t & Ht & Hv). exists t. split; [exact Ht|].
    rewrite Hv. now left.
Qed.

Lemma kept_In (tags : list string) (v : Version) :
  In v (kept E cliV tags) <->
  (exists t, In t tags /\ ParseTolerant E t = inr v)
  /\ isStable v = true /\ LT v cliV = false
  /\ GTE v (breakingV cliV) = false.
Proof.
  unfold kept, notOlder, stableTags.
  rewrite !filter_In, parsedTags_In, !negb_true_iff. tauto.
Qed.

Lemma notOlder_In (tags : list string) (v : Version) :
  In v (notOlder E cliV tags) <->
  (exists t, In t tags /\ ParseTolerant E t = inr v)
  /\ isStable v = true /\ LT v cliV = false.
Proof.
  unfold notOlder, stableTags.
  rewrite !filter_In, parsedTags_In, !negb_true_iff. tauto.
Qed.

(** The scan, with the boundary as the code computes it. *)
Lemma stable_scan_code (tags : list string) (st : Version * bool) :
  fold_left (stableStep E cliV) tags st =
  (fold_left keepGreater (kept E cliV tags) (fst st),
   snd st || flagged E cliV tags).
Proof.
  revert st. induction tags as [|tag tags IH]; intros [newestV flag].
  - unfold kept, flagged, notOlder, stableTags, parsedTags; simpl.
    now rewrite orb_false_r.
  - cbn [fold_left]. rewrite IH.
    unfold kept, flagged. rewrite notOlder_cons.
    unfold stableStep. destruct (ParseTolerant E tag) as [err|v];
      [reflexivity|].
    rewrite isStable_length.
    destruct (isStable v); simpl; [|reflexivity].
    destruct (LT v cliV); simpl; [reflexivity|].
    destruct (GTE v (breakingV cliV)); simpl.
    + now rewrite orb_true_r.
    + unfold keepGreater. destruct (GT v newestV); reflexivity.
Qed.

Lemma kept_stable (tags : list string) :
  Forall (fun v => isStable v = true) (kept E cliV tags).
Proof.
  apply Forall_forall. intros v Hv. apply kept_In in Hv. tauto.
Qed.

(** The version the scan keeps is stable, nothing kept exceeds it, and it
    is the zero version or one of the kept versions. *)
Lemma keepGreater_max (l : list Version) :
  Forall (fun v => isStable v = true) l ->
  isStable (fold_left keepGreater l zero) = true
  /\ (forall x, In x l -> GT x (fold_left keepGreater l zero) = false)
  /\ (fold_left keepGreater l zero = zero
      \/ In (fold_left keepGreater l zero) l).
Proof.
  intros Hall. pose proof Hall as Hin. rewrite Forall_forall in Hin.
  destruct (keepGreater_fold l Hall zero eq_refl)
    as [[Hr Hno]|[Hgt (pre & post & Hl & Hpre & Hpost)]].
  - rewrite Hr. split; [reflexivity|]. split; [exact Hno|now left].
  - set (r := fold_left keepGreater l zero) in *.
    assert (Hr : In r l).
    { rewrite Hl. apply in_or_app; right; left; reflexivity. }
    split; [now apply Hin|]. split; [|now right].
    intros x Hx. rewrite Hl in Hx.
    apply in_app_or in Hx as [Hx|[<-|Hx]].
    + pose proof (Hpre x Hx) as Hlt. unfold LT, GT in *.
      apply Z.eqb_eq in Hlt. now rewrite Hlt.
    + unfold GT. now rewrite Compare_refl.
    + now apply Hpost.
Qed.

End ScanFacts.

Section ScanUse.

Import semver docker resolver tagscan.

Variable E : Env.

Lemma Equals_of_notGT (a b : Version) :
  isStable a = true -> isStable b = true ->
  GT a b = false -> GT b a = false -> Equals a b = true.
Proof. intros Ha Hb H1 H2. by_order. Qed.

Lemma zero_least (a : Version) : isStable a = true -> GT zero a = false.
Proof.
  intros Ha. assert (Hz : isStable zero = true) by reflexivity. by_order.
Qed.

(** X4.  A tag that [GetCompatibleTag] returns for a current version that
    is neither empty nor "dev" is "v" followed by a version that is not
    older than the current one.  For a current version with a pre-release
    it is the current version itself, and some tag of the registry parses
    to a version equal to it; for a stable current version it is the
    version of some tag of the registry, without pre-release and below the
    breaking version the code computes. *)
Theorem GetCompatibleTag_never_older
    (image currentVersion tag : string) (flag : bool) (h : list Request) :
  currentVersion <> "" -> currentVersion <> "dev" ->
  fst (GetCompatibleTag E image currentVersion h) = (tag, flag, None) ->
  exists cliV tags v,
    ParseTolerant E currentVersion = inr cliV
    /\ fst (getTags E image h) = inr tags
    /\ tag = "v" ++ String v
    /\ LT v cliV = false
    /\ ((Pre cliV <> [] /\ v = cliV
         /\ exists t v', In t tags /\ ParseTolerant E t = inr v'
                         /\ Equals v' cliV = true)
        \/ (Pre cliV = [] /\ Pre v = []
            /\ GTE v (breakingV cliV) = false
            /\ exists t, In t tags /\ ParseTolerant E t = inr v)).
Proof.
  intros H1 H2. unfold GetCompatibleTag.
  rewrite skips_short_circuit by assumption.
  destruct (ParseTolerant E currentVersion) as [err|cliV];
    [discriminate|].
  unfold bind. destruct (getTags E image h) as [[err|tags] h'];
    [discriminate|].
  destruct (Pre cliV) as [|p ps] eqn:Hpre;
    cbn [List.length Nat.ltb Nat.leb].
  - unfold getCompatibleTag. rewrite stable_scan_code. cbn [fst snd].
    destruct (keepGreater_max (kept E cliV tags) (kept_stable E cliV tags))
      as (Hst & Hmax & Hin).
    set (r := fold_left keepGreater (kept E cliV tags) zero) in *.
    destruct (Equals r zero) eqn:Heq; [discriminate|].
    cbn [fst]. intros H. injection H as <- _.
    destruct Hin as [Hz|Hin]; [rewrite Hz in Heq; discriminate|].
    apply kept_In in Hin as (Ht & Hs & Hlt & Hb).
    exists cliV, tags, r. repeat split; try assumption.
    right. repeat split; try assumption. now apply isStable_Pre.
  - unfold getCompatibleTagForPre. rewrite pre_scan. cbn [fst snd].
    destruct (exactMatch E cliV tags) eqn:Hm; [|discriminate].
    destruct (Equals cliV zero); [discriminate|].
    cbn [fst]. intros H. injection H as <- _.
    exists cliV, tags, cliV. repeat split.
    + unfold LT. now rewrite Compare_refl.
    + left. split; [rewrite Hpre; discriminate|]. split; [reflexivity|].
      unfold exactMatch in Hm. apply existsb_exists in Hm as (v' & Hv' & He).
      apply parsedTags_In in Hv' as (t & Ht & Hp).
      exists t, v'. auto.
Qed.

(** X5.  The stable-client scan depends only on the set of tags: for two
    lists with the same tags, in any order and with any repetitions, the
    flags are the same and the selected versions are equal as versions
    (they can differ in build metadata only). *)
Theorem stable_scan_set (cliV : Version) (tags tags' : list string) :
  sameTags tags tags' ->
  snd (getCompatibleTag E tags cliV) = snd (getCompatibleTag E tags' cliV)
  /\ Equals (fst (getCompatibleTag E tags cliV))
            (fst (getCompatibleTag E tags' cliV)) = true.
Proof.
  intros Hsame. unfold getCompatibleTag. rewrite !stable_scan_code.
  cbn [fst snd].
  assert (Hkept : forall v, In v (kept E cliV tags)
                            <-> In v (kept E cliV tags')).
  { intros v. rewrite !kept_In.
    split; intros ((t & Ht & Hp) & Hrest); (split; [|exact Hrest]);
      exists t; (split; [now apply Hsame|exact Hp]). }
  split.
  - unfold flagged. apply existsb_same. intros v. rewrite !notOlder_In.
    split; intros ((t & Ht & Hp) & Hrest); (split; [|exact Hrest]);
      exists t; (split; [now apply Hsame|exact Hp]).
  - destruct (keepGreater_max (kept E cliV tags) (kept_stable E cliV tags))
      as (Hst & Hmax & Hin).
    destruct (keepGreater_max (kept E cliV tags') (kept_stable E cliV tags'))
      as (Hst' & Hmax' & Hin').
    set (r := fold_left keepGreater (kept E cliV tags) zero) in *.
    set (r' := fold_left keepGreater (kept E cliV tags') zero) in *.
    apply Equals_of_notGT; try assumption.
    + destruct Hin as [->|Hin]; [now apply zero_least|].
      apply Hmax'. now apply Hkept.
    + destruct Hin' as [->|Hin']; [now apply zero_least|].
      apply Hmax. now apply Hkept.
Qed.

(** X6.  The pre-release scan depends only on the set of tags: two lists
    with the same tags give the same version and the same flag. *)
Theorem prerelease_scan_set (cliV : Version) (tags tags' : list string) :
  sameTags tags tags' ->
  getCompatibleTagForPre E tags cliV = getCompatibleTagForPre E tags' cliV.
Proof.
  intros Hsame. unfold getCompatibleTagForPre. rewrite !pre_scan.
  assert (Hp : forall v, In v (parsedTags E tags)
                         <-> In v (parsedTags E tags')).
  { intros v. rewrite !parsedTags_In.
    split; intros (t & Ht & Hv); exists t;
      (split; [now apply Hsame|exact Hv]). }
  unfold exactMatch, newerPresent.
  rewrite (existsb_same _ _ _ Hp).
  now rewrite (existsb_same (fun v => GT v cliV) _ _ Hp).
Qed.

End ScanUse.

Lemma getTags_success_witness :
  let tags := ["1.2.1"; "1.3.0"] in
  let E := docker.fixedRegistry tags in
  docker.getTags E "img" [] = (inr tags, docker.twoRequests "img")
  /\ exists r token r',
       docker.RoundTrip E [] (tagscan.tokenRequest E "img") = inr r
       /\ docker.StatusCode r = 200%Z
       /\ docker.decodeToken E (docker.Body r) = inr token
       /\ docker.RoundTrip E ([] ++ [tagscan.tokenRequest E "img"])%list
            (docker.tagsRequest "img" token) = inr r'
       /\ docker.StatusCode r' = 200%Z
       /\ docker.decodeTags E (docker.Body r') = inr tags
       /\ docker.twoRequests "img" =
          ([] ++ [tagscan.tokenRequest E "img";
                  docker.tagsRequest "img" token])%list.
Proof.
  intros tags E. split; [reflexivity|].
  exact (getTags_success E "img" [] tags (docker.twoRequests "img") eq_refl).
Defined.

Lemma GetCompatibleTag_requests_witness :
  let E := docker.fixedRegistry [] in
  "latest" <> "" /\ "latest" <> "dev"
  /\ match docker.ParseTolerant E "latest" with
     | inl err =>
         docker.GetCompatibleTag E "img" "latest" [] =
         ("", false, Some err, [])
     | inr _ =>
         snd (docker.GetCompatibleTag E "img" "latest" []) =
         snd (docker.getTags E "img" [])
     end.
Proof.
  intros E.
  assert (H1 : "latest" <> "") by discriminate.
  assert (H2 : "latest" <> "dev") by discriminate.
  split; [exact H1|]. split; [exact H2|].
  exact (GetCompatibleTag_requests E "img" [] "latest" H1 H2).
Defined.

Lemma GetCompatibleTag_never_older_witness :
  let E := docker.fixedRegistry ["1.1.9"; "1.2.1"; "1.3.0-rc.1"; "2.0.0"] in
  "1.2.0" <> "" /\ "1.2.0" <> "dev"
  /\ fst (docker.GetCompatibleTag E "img" "1.2.0" []) =
     ("v1.2.1", true, None)
  /\ exists cliV tags v,
       docker.ParseTolerant E "1.2.0" = inr cliV
       /\ fst (docker.getTags E "img" []) = inr tags
       /\ "v1.2.1" = "v" ++ semver.String v
       /\ semver.LT v cliV = false
       /\ ((semver.Pre cliV <> [] /\ v = cliV
            /\ exists t v', In t tags /\ docker.ParseTolerant E t = inr v'
                            /\ semver.Equals v' cliV = true)
           \/ (semver.Pre cliV = [] /\ semver.Pre v = []
               /\ semver.GTE v (docker.breakingV cliV) = false
               /\ exists t, In t tags /\ docker.ParseTolerant E t = inr v)).
Proof.
  intros E.
  assert (H1 : "1.2.0" <> "") by discriminate.
  assert (H2 : "1.2.0" <> "dev") by discriminate.
  split; [exact H1|]. split; [exact H2|]. split; [reflexivity|].
  exact (GetCompatibleTag_never_older E "img" "1.2.0" "v1.2.1" true []
           H1 H2 eq_refl).
Defined.

Lemma stable_scan_set_witness :
  let E := docker.fixedRegistry [] in
  let cliV := semver.mkVersion 1 2 0 [] [] in
  let tags := ["1.2.1"; "1.3.0+a"; "2.0.0"; "1.3.0+b"] in
  let tags' := ["1.3.0+b"; "2.0.0"; "1.3.0+a"; "1.2.1"; "2.0.0"] in
  tagscan.sameTags tags tags'
  /\ docker.getCompatibleTag E tags cliV =
     (semver.mkVersion 1 3 0 [] ["a"], true)
  /\ docker.getCompatibleTag E tags' cliV =
     (semver.mkVersion 1 3 0 [] ["b"], true)
  /\ snd (docker.getCompatibleTag E tags cliV) =
     snd (docker.getCompatibleTag E tags' cliV)
  /\ semver.Equals (fst (docker.getCompatibleTag E tags cliV))
       (fst (docker.getCompatibleTag E tags' cliV)) = true.
Proof.
  intros E cliV tags tags'.
  assert (Hs : tagscan.sameTags tags tags').
  { intros t. unfold tags, tags'. simpl. tauto. }
  split; [exact Hs|]. split; [reflexivity|]. split; [reflexivity|].
  exact (stable_scan_set E cliV tags tags' Hs).
Defined.

Lemma prerelease_scan_set_witness :
  let E := docker.fixedRegistry [] in
  let cliV := semver.mkVersion 1 0 0 [semver.mkPRVersion "rc" 0 false] [] in
  let tags := ["1.0.0-rc"; "1.0.0"] in
  let tags' := ["1.0.0"; "1.0.0-rc"; "1.0.0"] in
  tagscan.sameTags tags tags'
  /\ docker.getCompatibleTagForPre E tags cliV =
     docker.getCompatibleTagForPre E tags' cliV.
Proof.
  intros E cliV tags tags'.
  assert (Hs : tagscan.sameTags tags tags').
  { intros t. unfold tags, tags'. simpl. tauto. }
  split; [exact Hs|].
  exact (prerelease_scan_set E cliV tags tags' Hs).
Defined.

(** ** The goroutines that the sql command starts *)

(** X7.  The helper goroutine of [pingDB] returns exactly when [pingDB] is
    still receiving, [client.SQL] returns a stream and no error, and [Recv]
    on the stream returns no error; in every other case it ends blocked in
    a send or in a nil dereference.  However it runs, at most one of its
    sends is received, and none when [pingDB] has already timed out. *)
Theorem pingDB_goroutine_exit (c : cmd.Client) (listening : bool) :
  (snd (cmd.runHelper c listening) = cmd.Exited
   <-> listening = true /\ cmd.SQL_err c = None
       /\ cmd.SQL_stream c = Some None)
  /\ (goroutines.completed (fst (cmd.runHelper c listening)) <= 1)%nat
  /\ (listening = false ->
      goroutines.completed (fst (cmd.runHelper c listening)) = 0%nat).
Proof.
  destruct c as [[[e|]|] [e'|]]; destruct listening; cbn;
    (split; [split; [intros H; try discriminate H; auto
                    |intros (H1 & H2 & H3); try discriminate; auto]|]);
    (split; [lia|intros H; try discriminate H; reflexivity]).
Qed.

Section AttachGoroutines.

Import cmd attach goroutines.

Variable T : Term.

Ltac step_cases' H :=
  repeat match type of H with
         | context [match ?x with _ => _ end] =>
             destruct x eqn:?; try discriminate H
         | context [if ?x then _ else _] =>
             destruct x eqn:?; try discriminate H
         end;
  try (injection H as <-).

Lemma placed_init : placed init.
Proof.
  unfold placed, init; simpl.
  repeat split; intros; try discriminate; auto.
Qed.

Ltac saturate' :=
  repeat match goal with
         | H : ?a = ?a -> _ |- _ => specialize (H eq_refl)
         | H : ?a = ?a \/ _ -> _ |- _ => specialize (H (or_introl eq_refl))
         | H : _ \/ ?a = ?a -> _ |- _ => specialize (H (or_intror eq_refl))
         | H : forall e, ?c ?x = ?c e -> _ |- _ => specialize (H _ eq_refl)
         | H : forall e, Some (Some ?x) = Some (Some e) -> _ |- _ =>
             specialize (H _ eq_refl)
         | H : ?x = ?y -> _, H' : ?x = ?y |- _ => specialize (H H')
         | H : forall e, ?x = Some (Some e) -> _, H' : ?x = Some (Some _)
           |- _ => pose proof (H _ H'); clear H
         | H : _ /\ _ |- _ => destruct H
         | H : exists _, _ |- _ => destruct H
         | H : _ \/ _ |- _ => destruct H
         | H : Some _ = Some _ |- _ => injection H as H; subst
         end.

Lemma placed_next (s s' : state) (e : step) :
  coherent T s -> placed s -> next T s e = Some s' -> placed s'.
Proof.
  intros HC HP H. destruct s as [m o i d w oe ie tk rs].
  unfold next in H. destruct e; step_cases' H;
    unfold coherent, placed, outputHeld, outputReleased, leaving in *;
    simpl in *;
    destruct HC as (C0 & C1 & C2 & C3 & C4 & C5 & C6 & C7 & _);
    destruct HP as (P1 & P2 & P3 & P4 & P5 & P6); subst; saturate'.
  all: repeat split; intros; subst; saturate'; try discriminate;
    try congruence; eauto 6.
Qed.

Lemma placed_exec (tr : list step) :
  forall s s',
    coherent T s -> placed s -> exec T s tr = Some s' ->
    coherent T s' /\ placed s'.
Proof.
  induction tr as [|e tr IH]; intros s s' HC HP H; cbn [exec] in H.
  - injection H as <-. now split.
  - destruct (next T s e) as [s1|] eqn:Hn; [|discriminate].
    apply (IH s1 s'); [| |exact H].
    + eapply coherent_next; eassumption.
    + eapply placed_next; eassumption.
Qed.

(** X8.  Where the copying goroutines are left, in every state the call
    and its goroutines reach.  Once the [select] has taken [outputDone],
    the output goroutine is past its send and the send of the input
    goroutine on [inputDone] is never received.  Once it has taken
    [inputDone]: if the input loop ended with an error, the output goroutine
    never gets past its send on [outputDone], which nobody receives; if the
    input loop ended with nil, the output goroutine is past its send by the
    time a [return] statement is executed. *)
Theorem attach_goroutines (tr : list step) (s : state) :
  exec T init tr = Some s ->
  (taken s = Some outputDone -> inputG s <> InExited /\ outputReleased s)
  /\ (taken s = Some inputDone ->
      inputG s = InExited
      /\ (forall e, inputErr s = Some (Some e) -> outputHeld s)
      /\ (inputErr s = Some None -> (exists r, returnStmt s = Some r) ->
          outputReleased s)).
Proof.
  intros H.
  destruct (placed_exec tr init s (coherent_init T) placed_init H)
    as [HC (P1 & P2 & P3 & P4 & P5 & P6)].
  split.
  - intros Ht. destruct (P3 Ht) as (Hi & Ho & _). now split.
  - intros Ht. split; [exact (P4 Ht)|]. split.
    + intros e He. now destruct (P5 Ht e He).
    + intros He (r & Hr).
      destruct (P6 Ht He) as [Hm|[Ho _]]; [|exact Ho].
      destruct HC as (_ & _ & _ & _ & _ & _ & _ & C7 & _).
      destruct (C7 Hm) as (_ & _ & Hrs). congruence.
Qed.

End AttachGoroutines.

Lemma attach_goroutines_witness :
  let T := cmd.mkTerm false None None in
  let tr := [cmd.Enter; cmd.InputCopyEnds (Some (New "read error"));
             cmd.InputCloseWrite; cmd.SelectInputDone; cmd.Leave;
             cmd.OutputCopyEnds None] in
  exists s,
    cmd.exec T cmd.init tr = Some s
    /\ cmd.mainG s = cmd.Returned (Some (New "read error"))
    /\ cmd.outputG s = cmd.OutSending None
    /\ cmd.taken s = Some cmd.inputDone
    /\ cmd.inputG s = cmd.InExited
    /\ (forall e, cmd.inputErr s = Some (Some e) -> goroutines.outputHeld s)
    /\ (cmd.inputErr s = Some None ->
        (exists r, cmd.returnStmt s = Some r) ->
        goroutines.outputReleased s).
Proof.
  intros T tr. eexists. split; [reflexivity|].
  split; [reflexivity|]. split; [reflexivity|]. split; [reflexivity|].
  apply (attach_goroutines T tr); reflexivity.
Defined.

(** ** The readiness wait: how many calls can matter *)
Section ReadinessBound.

Import cmd readiness.

Variable T : Timeline.

Lemma startOf_lower (n : nat) : (N.of_nat n * sleep <= startOf T n)%N.
Proof.
  induction n as [|n IH]; [cbn; lia|].
  cbn [startOf]. rewrite Nat2N.inj_succ. unfold sleep, Second in *. lia.
Qed.

(** X9.  The readiness wait returns nil only when one of the first 301
    calls of [pingDB] returns nil and does so no later than the deadline:
    every failed call is followed by a sleep of one second, so that a later
    call starts after the five minutes. *)
Theorem readiness_probe_bound :
  ensureConnReady T = Some None ->
  exists n, (n <= 300)%nat /\ firstSuccess T n
            /\ (finishOf T n <= globalTimeout)%N.
Proof.
  intros Hr.
  destruct (ensureConnReady_cases T) as [[_ (n & Hn & Hb)]|[Hr' _]];
    [|congruence].
  assert (Hfin : (finishOf T n <= globalTimeout)%N).
  { destruct Hb as [Hb|[Hb _]]; lia. }
  exists n. split; [|now split].
  pose proof (startOf_lower n) as Hlow. unfold finishOf in Hfin.
  unfold globalTimeout, Minute, sleep, Second in *. lia.
Qed.

End ReadinessBound.

Lemma readiness_probe_bound_witness :
  let T := cmd.mkTimeline
             (fun i => (cmd.Second,
                        if (i <? 3)%nat then Some (New "refused") else None))
             false in
  cmd.ensureConnReady T = Some None
  /\ exists n, (n <= 300)%nat /\ readiness.firstSuccess T n
               /\ (readiness.finishOf T n <= cmd.globalTimeout)%N.
Proof.
  intros T.
  assert (H : cmd.ensureConnReady T = Some None) by (vm_compute; reflexivity).
  split; [exact H|]. exact (readiness_probe_bound T H).
Defined.

(** ** sqlCmd.Execute: what a nil result means *)
Section ExecuteResult.

Import cmd.

Variable w : World.

(** X10.  [Execute] returns nil only when there are no further arguments,
    the daemon client, the start of gitbase, the readiness wait, the
    reading of the query and the start of the mysql client all succeeded,
    and then, with a query, the copy of the output succeeded and the exit
    code is 0, or, without a query, the interactive session returned
    nil. *)
Theorem Execute_nil (Query : string) (args : list string) :
  Execute w Query args = None ->
  args = []
  /\ daemon_Client w = None /\ startGitbaseWithClient w = None
  /\ connReady w = None
  /\ exists query,
       readQuery w Query = inr query
       /\ runMysqlCli w query = None
       /\ (query <> "" -> copyToStdout w = None /\ exit w = 0%Z)
       /\ (query = "" -> attachStdio w = None).
Proof.
  unfold Execute. destruct args as [|a args]; [|discriminate].
  cbn [List.length Nat.ltb Nat.leb].
  destruct (daemon_Client w); [discriminate|].
  destruct (startGitbaseWithClient w); [discriminate|].
  destruct (connReady w); [discriminate|].
  destruct (readQuery w Query) as [err|query]; [discriminate|].
  destruct (runMysqlCli w query) eqn:Hrun; [discriminate|].
  destruct (String.eqb_spec query "") as [Hq|Hq]; cbn [negb].
  - intros H. do 4 (split; [reflexivity|]). exists query.
    split; [reflexivity|]. split; [exact Hrun|].
    split; [|intros _; exact H].
    intros Hne; destruct (Hne Hq).
  - destruct (copyToStdout w); [discriminate|].
    destruct (Z.eqb_spec (exit w) 0) as [Hz|Hz]; cbn [negb];
      [|discriminate].
    intros _. do 4 (split; [reflexivity|]). exists query.
    split; [reflexivity|]. split; [exact Hrun|].
    split; [intros _; now split|].
    intros He; destruct (Hq He).
Qed.

(** X11.  A positional query that is not empty but trims to the empty
    string starts the interactive session: standard input is not read as
    the query even when it is piped, the mysql client is started without a
    query, and [Execute] returns what the session returns. *)
Theorem Execute_blank_query (Query : string) :
  Query <> "" -> TrimSpace w Query = "" ->
  daemon_Client w = None -> startGitbaseWithClient w = None ->
  connReady w = None -> runMysqlCli w "" = None ->
  readQuery w Query = inr "" /\ Execute w Query [] = attachStdio w.
Proof.
  intros Hq Ht Hc Hs Hr Hm.
  assert (Hread : readQuery w Query = inr "").
  { unfold readQuery. apply String.eqb_neq in Hq. now rewrite Hq, Ht. }
  split; [exact Hread|]. unfold Execute. cbn [List.length Nat.ltb Nat.leb].
  now rewrite Hc, Hs, Hr, Hread, Hm.
Qed.

End ExecuteResult.

Lemma Execute_nil_witness :
  let w := cmd.sqlWorld None 0 in
  cmd.Execute w "SELECT 1" [] = None
  /\ ([] : list string) = []
  /\ cmd.daemon_Client w = None /\ cmd.startGitbaseWithClient w = None
  /\ cmd.connReady w = None
  /\ exists query,
       cmd.readQuery w "SELECT 1" = inr query
       /\ cmd.runMysqlCli w query = None
       /\ (query <> "" -> cmd.copyToStdout w = None /\ cmd.exit w = 0%Z)
       /\ (query = "" -> cmd.attachStdio w = None).
Proof.
  intros w. split; [reflexivity|].
  exact (Execute_nil w "SELECT 1" [] eq_refl).
Defined.

Lemma Execute_blank_query_witness :
  let w := cmd.mkWorld strings.TrimSpace (fun err msg => Wrap err msg)
             None None None false (inr "SELECT 2") (fun _ => None) None 0
             (Some (New "session ended")) in
  "  " <> "" /\ cmd.TrimSpace w "  " = ""
  /\ cmd.readQuery w "  " = inr ""
  /\ cmd.Execute w "  " [] = Some (New "session ended").
Proof.
  intros w.
  assert (H1 : "  " <> "") by discriminate.
  split; [exact H1|]. split; [reflexivity|].
  exact (Execute_blank_query w "  " H1 eq_refl eq_refl eq_refl eq_refl
           eq_refl).
Defined.

(** ** Image identifiers *)
Section ImageID.

Import engine.

Lemma Split_noColon (s : string) :
  noColon s = true -> strings.Split ":" s = [s].
Proof.
  induction s as [|c s IH]; [reflexivity|]. unfold noColon.
  cbn [semver.forallb_string strings.Split].
  destruct (Ascii.eqb ":" c); cbn [negb andb]; [discriminate|].
  intros H. fold (noColon s) in H. now rewrite (IH H).
Qed.

Lemma Split_join (a b : string) :
  noColon a = true ->
  strings.Split ":" (a ++ String.String ":" b) = a :: strings.Split ":" b.
Proof.
  induction a as [|c a IH].
  - intros _. cbn [String.append strings.Split].
    now rewrite Ascii.eqb_refl.
  - unfold noColon.
    cbn [semver.forallb_string String.append strings.Split].
    destruct (Ascii.eqb ":" c); cbn [negb andb]; [discriminate|].
    intros H. fold (noColon a) in H. now rewrite (IH H).
Qed.

Lemma SplitImageID_parts (image version : string) :
  noColon image = true -> noColon version = true ->
  SplitImageID (image ++ ":" ++ version) = (image, version)
  /\ SplitImageID image = (image, "latest").
Proof.
  intros Hi Hv. unfold SplitImageID. split.
  - change (image ++ ":" ++ version)
      with (image ++ String.String ":" version).
    rewrite (Split_join _ _ Hi), (Split_noColon _ Hv). reflexivity.
  - rewrite (Split_noColon _ Hi). reflexivity.
Qed.

(** X12.  [SplitImageID] undoes the joining of an image name and a version
    with a colon when neither holds a colon, also for an empty version, and
    gives the version "latest" to a name without a colon. *)
Theorem SplitImageID_join (image version : string) :
  noColon image = true -> noColon version = true ->
  SplitImageID (image ++ ":" ++ version) = (image, version)
  /\ SplitImageID image = (image, "latest").
Proof.
  intros Hi Hv. unfold SplitImageID. split.
  - change (image ++ ":" ++ version)
      with (image ++ String.String ":" version).
    rewrite (Split_join image version Hi), (Split_noColon version Hv).
    reflexivity.
  - rewrite (Split_noColon image Hi). reflexivity.
Qed.

End ImageID.

Lemma SplitImageID_join_witness :
  engine.noColon "srcd/gitbase" = true /\ engine.noColon "v0.20.0" = true
  /\ engine.SplitImageID ("srcd/gitbase" ++ ":" ++ "v0.20.0") =
     ("srcd/gitbase", "v0.20.0")
  /\ engine.SplitImageID "srcd/gitbase" = ("srcd/gitbase", "latest").
Proof.
  split; [reflexivity|]. split; [reflexivity|].
  exact (SplitImageID_join "srcd/gitbase" "v0.20.0" eq_refl eq_refl).
Defined.

(** ** Looking a container up *)
Section Lookup.

Import engine.

Lemma matchName_true (name : string) (names : list string) :
  matchName name names = Some true ->
  exists ch, In (String.String ch name) names.
Proof.
  induction names as [|n names IH]; cbn; [discriminate|].
  destruct n as [|ch tl]; [discriminate|].
  destruct (String.eqb_spec name tl) as [->|Hne].
  - intros _. exists ch. now left.
  - intros H. destruct (IH H) as (ch' & Hin). exists ch'. now right.
Qed.

Lemma matchName_false (name : string) (names : list string) :
  matchName name names = Some false ->
  forall ch, ~ In (String.String ch name) names.
Proof.
  induction names as [|n names IH]; cbn; [intros _ ch []|].
  destruct n as [|ch tl]; [discriminate|].
  destruct (String.eqb_spec name tl) as [->|Hne]; [discriminate|].
  intros H ch' [Heq|Hin].
  - injection Heq as _ Heq. congruence.
  - exact (IH H ch' Hin).
Qed.

Lemma findContainer_Found (name : string) (cs : list Container)
    (c : Container) :
  findContainer name cs = Found c ->
  exists pre post ch,
    cs = (pre ++ c :: post)%list
    /\ In (String.String ch name) (Names c)
    /\ forall c' ch', In c' pre -> ~ In (String.String ch' name) (Names c').
Proof.
  induction cs as [|c0 cs IH]; cbn; [discriminate|].
  destruct (matchName name (Names c0)) as [[|]|] eqn:Hm; [| |discriminate].
  - intros H. injection H as <-.
    destruct (matchName_true _ _ Hm) as (ch & Hin).
    exists [], cs, ch. repeat split; [exact Hin|intros c' ch' []].
  - intros H. destruct (IH H) as (pre & post & ch & -> & Hin & Hpre).
    exists (c0 :: pre), post, ch. repeat split; [exact Hin|].
    intros c' ch' [<-|Hc']; [now apply matchName_false|now apply Hpre].
Qed.

Lemma findContainer_NotFound (name : string) (cs : list Container) :
  findContainer name cs = NotFound ->
  forall c ch, In c cs -> ~ In (String.String ch name) (Names c).
Proof.
  induction cs as [|c0 cs IH]; cbn; [intros _ c ch []|].
  destruct (matchName name (Names c0)) as [[|]|] eqn:Hm; try discriminate.
  intros H c ch [<-|Hc]; [now apply matchName_false|now apply IH].
Qed.

Variable D : Daemon.
Variable name : string.
Variable h : list call.

(** X13.  [Info] compares [name] with each name of each listed container
    without its first byte.  The container it returns is the first of the
    list that has such a name, and it returns [ErrNotFound] only when the
    listing succeeded and no listed container has such a name. *)
Theorem Info_lookup :
  (forall c, fst (Info D name h) = Found c ->
     exists cs pre post ch,
       containerList D (h ++ [GetClientCall])%list name = inr cs
       /\ cs = (pre ++ c :: post)%list
       /\ In (String.String ch name) (Names c)
       /\ forall c' ch', In c' pre ->
                         ~ In (String.String ch' name) (Names c'))
  /\ (fst (Info D name h) = NotFound ->
      exists cs,
        containerList D (h ++ [GetClientCall])%list name = inr cs
        /\ forall c ch, In c cs -> ~ In (String.String ch name) (Names c)).
Proof.
  unfold Info, andThen, GetClient, ask, pure.
  destruct (getClient D h) as [err|]; cbn [fst];
    [split; [intros c H|intros H]; discriminate|].
  destruct (containerList D _ name) as [err|cs]; cbn [fst];
    [split; [intros c H|intros H]; discriminate|].
  split.
  - intros c H. destruct (findContainer_Found _ _ _ H)
      as (pre & post & ch & Hcs & Hin & Hpre).
    exists cs, pre, post, ch. auto.
  - intros H. exists cs. split; [reflexivity|].
    now apply findContainer_NotFound.
Qed.

(** X14.  For an image name without a colon that is not empty, [IsRunning]
    gives the same answer for the name alone, for the name followed by
    ":latest" and for the name followed by a colon. *)
Theorem IsRunning_latest (image : string) :
  noColon image = true -> image <> "" ->
  IsRunning D name (image ++ ":latest") h = IsRunning D name image h
  /\ IsRunning D name (image ++ ":") h = IsRunning D name image h.
Proof.
  intros Hc Hne.
  assert (H1 : SplitImageID image = (image, "latest"))
    by apply (SplitImageID_parts image "" Hc eq_refl).
  assert (H2 : SplitImageID (image ++ ":latest") = (image, "latest"))
    by apply (SplitImageID_parts image "latest" Hc eq_refl).
  assert (H3 : SplitImageID (image ++ ":") = (image, ""))
    by apply (SplitImageID_parts image "" Hc eq_refl).
  assert (Hn : forall s, (image ++ s =? "")%string = false).
  { intros s. apply String.eqb_neq. destruct image; [congruence|discriminate]. }
  unfold IsRunning, andThen.
  destruct (Info D name h) as [[c| |err|] h1]; try (split; reflexivity).
  destruct (negb (State c =? "running")%string); [split; reflexivity|].
  apply String.eqb_neq in Hne. rewrite !Hn, Hne, H1, H2, H3.
  destruct (SplitImageID (Image c)) as [n v]. split; reflexivity.
Qed.

End Lookup.

Lemma IsRunning_latest_witness :
  let D := engine.quietDaemon []
             [engine.mkContainer "1f" ["/srcd-cli-gitbase"]
                "srcd/gitbase" "running"]
             (engine.mkHostInfo "linux" "") in
  engine.noColon "srcd/gitbase" = true /\ "srcd/gitbase" <> ""
  /\ fst (engine.IsRunning D "srcd-cli-gitbase" "srcd/gitbase" []) =
     engine.Returns (true, None)
  /\ engine.IsRunning D "srcd-cli-gitbase" ("srcd/gitbase" ++ ":latest") []
     = engine.IsRunning D "srcd-cli-gitbase" "srcd/gitbase" []
  /\ engine.IsRunning D "srcd-cli-gitbase" ("srcd/gitbase" ++ ":") []
     = engine.IsRunning D "srcd-cli-gitbase" "srcd/gitbase" [].
Proof.
  intros D.
  assert (H : "srcd/gitbase" <> "") by discriminate.
  split; [reflexivity|]. split; [exact H|]. split; [reflexivity|].
  exact (IsRunning_latest D "srcd-cli-gitbase" [] "srcd/gitbase" eq_refl H).
Defined.

(** ** Installing an image *)
Section Install.

Import engine.

Variable D : Daemon.
Variable image : string.

Lemma versionsOf_In (imgs : list ImageSummary) (i : ImageSummary)
    (version : string) :
  noColon image = true -> noColon version = true ->
  In i imgs -> In (image ++ ":" ++ version) (RepoTags i) ->
  In version (versionsOf image imgs).
Proof.
  intros Hi Hv Hin Htag. unfold versionsOf.
  apply in_flat_map. exists i. split; [exact Hin|].
  apply in_flat_map. exists (image ++ ":" ++ version). split; [exact Htag|].
  destruct (SplitImageID_parts image version Hi Hv) as [-> _].
  rewrite String.eqb_refl. now left.
Qed.

(** X15.  When the engine lists an image with the repository tag
    image:version (neither part holding a colon), [EnsureInstalled] for
    that version, or for the empty version, returns nil after the listing
    of the images and pulls nothing. *)
Theorem EnsureInstalled_present
    (version wanted : string) (h : list call)
    (imgs : list ImageSummary) (i : ImageSummary) :
  noColon image = true -> noColon version = true ->
  wanted = version \/ wanted = "" ->
  getClient D h = None ->
  imageList D (h ++ [GetClientCall])%list = inr imgs ->
  In i imgs -> In (image ++ ":" ++ version) (RepoTags i) ->
  EnsureInstalled D image wanted h =
  (None, (h ++ [GetClientCall; ImageListCall])%list).
Proof.
  intros Hi Hv Hw Hc Hl Hin Htag.
  pose proof (versionsOf_In imgs i version Hi Hv Hin Htag) as Hver.
  unfold EnsureInstalled, IsInstalled, VersionsInstalled, ListImages,
    andThen, GetClient, ask, pure.
  rewrite Hc, Hl.
  assert (Hh : ((h ++ [GetClientCall]) ++ [ImageListCall]
                = h ++ [GetClientCall; ImageListCall])%list)
    by now rewrite <- app_assoc.
  destruct (String.eqb_spec wanted "") as [He|He].
  - destruct (versionsOf image imgs) as [|v vs]; [destruct Hver|].
    cbn. now rewrite Hh.
  - destruct Hw as [->|Hw]; [|contradiction].
    assert (Hex : existsb (fun v => (v =? version)%string)
                    (versionsOf image imgs) = true).
    { apply existsb_exists. exists version. split; [exact Hver|].
      apply String.eqb_refl. }
    rewrite Hex. now rewrite Hh.
Qed.

(** X16.  Whatever the engine answers, the only image [EnsureInstalled] can
    pull is image:version, with "latest" for the empty version, and it
    pulls at most once: the calls it adds are the listing of the images
    and then, at most, one pull of that identifier. *)
Theorem EnsureInstalled_pulls (version : string) (h : list call) :
  let id := image ++ ":"
            ++ (if (version =? "")%string then "latest" else version) in
  let tr := snd (EnsureInstalled D image version h) in
  tr = (h ++ [GetClientCall])%list
  \/ tr = (h ++ [GetClientCall; ImageListCall])%list
  \/ tr = (h ++ [GetClientCall; ImageListCall; GetClientCall])%list
  \/ tr = (h ++ [GetClientCall; ImageListCall; GetClientCall;
                 ImagePullCall id])%list.
Proof.
  intros id tr. subst tr id.
  unfold EnsureInstalled, IsInstalled, VersionsInstalled, ListImages, Pull,
    andThen, GetClient, ask, pure.
  destruct (getClient D h); [now left|].
  destruct (imageList D _) as [err|imgs];
    [right; left; cbn [snd]; now rewrite <- app_assoc|].
  destruct (version =? "")%string eqn:Hv.
  - cbn [fst snd]. destruct (0 <? List.length (versionsOf image imgs))%nat.
    + right; left. cbn [snd]. now rewrite <- app_assoc.
    + destruct (getClient D _).
      * right; right; left. cbn [snd]. now rewrite <- !app_assoc.
      * destruct (imagePull D _ _); right; right; right; cbn [snd];
          now rewrite <- !app_assoc.
  - cbn [fst snd].
    destruct (existsb _ (versionsOf image imgs)).
    + right; left. cbn [snd]. now rewrite <- app_assoc.
    + destruct (getClient D _).
      * right; right; left. cbn [snd]. now rewrite <- !app_assoc.
      * destruct (imagePull D _ _); right; right; right; cbn [snd];
          now rewrite <- !app_assoc.
Qed.

End Install.

Lemma EnsureInstalled_present_witness :
  let imgs := [engine.mkImage ["mysql:5.7"; "mysql:latest"];
               engine.mkImage ["srcd/gitbase:v0.20.0"]] in
  let D := engine.quietDaemon imgs [] (engine.mkHostInfo "linux" "") in
  engine.noColon "srcd/gitbase" = true /\ engine.noColon "v0.20.0" = true
  /\ engine.EnsureInstalled D "srcd/gitbase" "v0.20.0" [] =
     (None, ([] ++ [engine.GetClientCall; engine.ImageListCall])%list).
Proof.
  intros imgs D. split; [reflexivity|]. split; [reflexivity|].
  apply (EnsureInstalled_present D "srcd/gitbase" "v0.20.0" "v0.20.0" []
           imgs (engine.mkImage ["srcd/gitbase:v0.20.0"])
           eq_refl eq_refl (or_introl eq_refl) eq_refl eq_refl).
  - right; left; reflexivity.
  - left; reflexivity.
Defined.

(** ** Creating a container over a stale one *)
Section ForceCreate.

Import engine.

Variable D : Daemon.
Variable name : string.
Variable h : list call.

Let h1 : list call := (h ++ [ContainerCreateCall name])%list.

(** X17.  [forceContainerCreate] returns a container exactly when the first
    creation succeeds, or when it fails, [Info] then finds a container of
    that name, the removal of that container succeeds and the second
    creation succeeds.  After a first creation that succeeds it makes no
    other call; a removal that fails ends the attempt with the error of the
    removal. *)
Theorem forceContainerCreate_result (id : string) :
  (fst (forceContainerCreate D name h) = Returns (inr id)
   <-> containerCreate D h name = inr id
       \/ exists err c,
            containerCreate D h name = inl err
            /\ fst (Info D name h1) = Found c
            /\ containerRemove D (snd (Info D name h1)) (ID c) false = None
            /\ containerCreate D
                 (snd (Info D name h1)
                  ++ [ContainerRemoveCall (ID c) false])%list name = inr id)
  /\ (containerCreate D h name = inr id ->
      forceContainerCreate D name h = (Returns (inr id), h1))
  /\ (forall err c rerr,
        containerCreate D h name = inl err ->
        fst (Info D name h1) = Found c ->
        containerRemove D (snd (Info D name h1)) (ID c) false = Some rerr ->
        forceContainerCreate D name h =
        (Returns (inl rerr),
         (snd (Info D name h1) ++ [ContainerRemoveCall (ID c) false])%list)).
Proof.
  unfold forceContainerCreate, andThen, ask, pure. fold h1.
  destruct (containerCreate D h name) as [err|id0] eqn:Hc.
  - destruct (Info D name h1) as [[c| |ierr|] h2] eqn:Hi; cbn [fst snd].
    + split; [|split; [discriminate|]].
      * destruct (containerRemove D h2 (ID c) false) as [rerr|] eqn:Hr;
          cbn [fst].
        -- split; [discriminate|].
           intros [H|(err' & c' & _ & Hf & Hr' & _)]; [discriminate|].
           injection Hf as <-. congruence.
        -- split.
           ++ intros H. injection H as H. right. exists err, c.
              repeat split; assumption.
           ++ intros [H|(err' & c' & _ & Hf & _ & Hc2)]; [discriminate|].
              injection Hf as <-. now rewrite Hc2.
      * intros err' c' rerr _ Hf Hr. injection Hf as <-. now rewrite Hr.
    + split; [|split; [discriminate|intros ? ? ? _ Hf; discriminate]].
      split; [discriminate|].
      intros [H|(err' & c' & _ & Hf & _)]; discriminate.
    + split; [|split; [discriminate|intros ? ? ? _ Hf; discriminate]].
      split; [discriminate|].
      intros [H|(err' & c' & _ & Hf & _)]; discriminate.
    + split; [|split; [discriminate|intros ? ? ? _ Hf; discriminate]].
      split; [discriminate|].
      intros [H|(err' & c' & _ & Hf & _)]; discriminate.
  - cbn [fst]. split; [|split].
    + split.
      * intros H. injection H as ->. now left.
      * intros [H|(err' & c' & Hf & _)]; [|discriminate].
        injection H as ->. reflexivity.
    + intros H. injection H as ->. reflexivity.
    + intros ? ? ? H. discriminate.
Qed.

End ForceCreate.

(** ** The path of a shared directory *)
Section HostPathFacts.

Import engine.

Lemma driveToSlashes_idempotent (p : string) :
  driveToSlashes (driveToSlashes p) = driveToSlashes p.
Proof.
  destruct p as [|c [|d rest]]; try reflexivity.
  cbn [driveToSlashes].
  destruct (Ascii.eqb_spec d ":") as [->|Hd].
  - destruct (isWord c) eqn:Hw; [reflexivity|].
    cbn [driveToSlashes]. now rewrite Hw.
  - assert (H : driveToSlashes (String.String c (String.String d rest)) =
                String.String c (String.String d rest)).
    { cbn [driveToSlashes].
      destruct d as [[|] [|] [|] [|] [|] [|] [|] [|]]; try reflexivity.
      now destruct Hd. }
    cbn [driveToSlashes] in H. rewrite !H. cbn [driveToSlashes].
    exact H.
Qed.

Variable D : Daemon.
Variable h : list call.


End HostPathFacts.


(** ** The size of the terminal *)
Section TtySize.

Import engine.

Lemma retryResize_spec (resize : nat -> option error) (left : nat) :
  forall i,
    let k := retryResize resize left i in
    (k <= left)%nat
    /\ (forall j, (j + 1 < k)%nat -> resize (i + j)%nat <> None)
    /\ ((k < left)%nat -> (1 <= k)%nat /\ resize (i + k - 1)%nat = None)
    /\ (forall j, (j < left)%nat -> resize (i + j)%nat = None ->
                  (1 <= k)%nat /\ resize (i + k - 1)%nat = None).
Proof.
  induction left as [|left IH]; intros i; cbn [retryResize].
  - repeat split; try lia; intros j Hj; lia.
  - destruct (resize i) as [err|] eqn:Hr.
    + destruct (IH (S i)) as (Hle & Hfail & Hlast & Hany).
      set (k := retryResize resize left (S i)) in *.
      split; [lia|]. split; [|split].
      * intros j Hj. destruct j as [|j].
        -- rewrite Nat.add_0_r, Hr. discriminate.
        -- replace (i + S j)%nat with (S i + j)%nat by lia.
           apply Hfail. lia.
      * intros Hk. assert (Hk' : (k < left)%nat) by lia.
        destruct (Hlast Hk') as [H1 H2]. split; [lia|].
        replace (i + S k - 1)%nat with (S i + k - 1)%nat by lia. exact H2.
      * intros j Hj Hn. destruct j as [|j].
        -- rewrite Nat.add_0_r, Hr in Hn. discriminate.
        -- replace (i + S j)%nat with (S i + j)%nat in Hn by lia.
           destruct (Hany j ltac:(lia) Hn) as [H1 H2]. split; [lia|].
           replace (i + S k - 1)%nat with (S i + k - 1)%nat by lia.
           exact H2.
    + split; [lia|]. split; [intros j Hj; lia|].
      split; intros; (split; [lia|]);
        replace (i + 1 - 1)%nat with i by lia; exact Hr.
Qed.

(** X19.  [initTtySize] calls [resizeTty] at least once and at most six
    times; every call but the last one made has failed; it stops before the
    sixth call only after a call that succeeded, and when one of the first
    six calls would succeed, the last call made is a call that
    succeeded. *)
Theorem initTtySize_calls (resize : nat -> option error) :
  let n := initTtySize resize in
  (1 <= n <= 6)%nat
  /\ (forall i, (i + 1 < n)%nat -> resize i <> None)
  /\ ((n < 6)%nat -> resize (n - 1)%nat = None)
  /\ (forall i, (i < 6)%nat -> resize i = None ->
                resize (n - 1)%nat = None).
Proof.
  unfold initTtySize. destruct (resize 0%nat) as [err|] eqn:H0.
  - destruct (retryResize_spec resize 5 1) as (Hle & Hfail & Hlast & Hany).
    set (k := retryResize resize 5 1) in *. cbv zeta.
    split; [lia|]. split; [|split].
    + intros i Hi. destruct i as [|i]; [rewrite H0; discriminate|].
      replace (S i) with (1 + i)%nat by lia. apply Hfail. lia.
    + intros Hk. destruct (Hlast ltac:(lia)) as [H1 H2].
      replace (S k - 1)%nat with (1 + k - 1)%nat by lia. exact H2.
    + intros i Hi Hn. destruct i as [|i]; [congruence|].
      replace (S i) with (1 + i)%nat in Hn by lia.
      destruct (Hany i ltac:(lia) Hn) as [H1 H2].
      replace (S k - 1)%nat with (1 + k - 1)%nat by lia. exact H2.
  - cbv zeta. split; [lia|]. split; [intros i Hi; lia|].
    split; intros; exact H0.
Qed.

Lemma pollSize_In (size : nat -> N * N) (n : nat) :
  forall i0 prev i,
    In i (pollSize size n i0 prev) <->
    ((i = i0 /\ (1 <= n)%nat /\ size i0 <> prev)
     \/ ((i0 < i < i0 + n)%nat /\ size i <> size (i - 1)%nat)).
Proof.
  induction n as [|n IH]; intros i0 prev i; cbn [pollSize].
  - split; [intros []|intros [(_ & H & _)|(H & _)]; lia].
  - destruct (size i0) as [hh ww] eqn:Hs. destruct prev as [prevH prevW].
    assert (Hne : negb (prevW =? ww)%N || negb (prevH =? hh)%N = true
                  <-> (hh, ww) <> (prevH, prevW)).
    { destruct (N.eqb_spec prevW ww) as [Hw|Hw],
               (N.eqb_spec prevH hh) as [Hh|Hh]; cbn; split; intros H;
        first [discriminate H
              |reflexivity
              |intros Heq; injection Heq as E1 E2; congruence
              |destruct H; congruence]. }
    assert (Hrest : In i (pollSize size n (S i0) (hh, ww)) <->
                    ((S i0 <= i < i0 + S n)%nat
                     /\ size i <> size (i - 1)%nat)).
    { rewrite IH. split.
      - intros [(-> & Hn & Hd)|(Hr & Hd)].
        + split; [lia|]. replace (S i0 - 1)%nat with i0 by lia.
          now rewrite Hs.
        + split; [lia|exact Hd].
      - intros (Hr & Hd).
        destruct (Nat.eq_dec i (S i0)) as [->|Hne'].
        + left. split; [reflexivity|]. split; [lia|].
          replace (S i0 - 1)%nat with i0 in Hd by lia. now rewrite Hs in Hd.
        + right. split; [lia|exact Hd]. }
    destruct (negb (prevW =? ww)%N || negb (prevH =? hh)%N) eqn:Hb.
    + cbn [In]. rewrite Hrest. split.
      * intros [<-|(Hr & Hd)].
        -- left. split; [reflexivity|]. split; [lia|]. now apply Hne.
        -- right. split; [lia|exact Hd].
      * intros [(-> & _ & _)|(Hr & Hd)]; [now left|].
        right. split; [lia|exact Hd].
    + rewrite Hrest. split.
      * intros (Hr & Hd). right. split; [lia|exact Hd].
      * intros [(-> & _ & Hd)|(Hr & Hd)].
        -- apply Hne in Hd. congruence.
        -- split; [lia|exact Hd].
Qed.

(** X20.  Among the first [n] readings after the initial one, the polling
    monitor calls [resizeTty] exactly at the readings whose size differs
    from the size of the reading before; when the size never changes, it
    never calls it. *)
Theorem monitorPoll_changes (size : nat -> N * N) (n : nat) :
  (forall i, In i (monitorPoll size n) <->
             ((1 <= i <= n)%nat /\ size i <> size (i - 1)%nat))
  /\ ((forall i, size i = size 0%nat) -> monitorPoll size n = []).
Proof.
  assert (H : forall i, In i (monitorPoll size n) <->
                        ((1 <= i <= n)%nat /\ size i <> size (i - 1)%nat)).
  { intros i. unfold monitorPoll. rewrite pollSize_In. split.
    - intros [(-> & Hn & Hd)|(Hr & Hd)]; (split; [lia|]); assumption.
    - intros (Hr & Hd). destruct (Nat.eq_dec i 1) as [->|Hne].
      + left. split; [reflexivity|]. split; [lia|exact Hd].
      + right. split; [lia|exact Hd]. }
  split; [exact H|]. intros Hconst.
  destruct (monitorPoll size n) as [|i l] eqn:Hm; [reflexivity|].
  destruct (proj1 (H i) (or_introl eq_refl)) as [_ Hd].
  destruct Hd. now rewrite (Hconst i), (Hconst (i - 1)%nat).
Qed.

End TtySize.

(** ** The exit code of a query *)
Section ExitCode.

Import cmd.

Variable w : World.
Variables Query query : string.
Variable wait : error + Z.

Hypothesis client : daemon_Client w = None.
Hypothesis started : startGitbaseWithClient w = None.
Hypothesis ready : connReady w = None.
Hypothesis asked : readQuery w Query = inr query.
Hypothesis oneShot : query <> "".
Hypothesis running : runMysqlCli w query = None.
Hypothesis copied : copyToStdout w = None.
Hypothesis watched : exit w = engine.exitCode wait.

(** X21.  With the exit code sent by the goroutine of [Attach]: a query
    whose output was copied makes [Execute] return nil exactly when the
    wait for the container delivered the status 0; when the wait itself
    failed, [Execute] returns the error for the status 1, whatever the
    status of the process was. *)
Theorem one_shot_wait :
  (Execute w Query [] = None <-> wait = inr 0%Z)
  /\ (forall err, wait = inl err ->
        Execute w Query [] = Some (New "MySQL exited with status 1")).
Proof.
  rewrite (Execute_one_shot w Query query client started ready asked oneShot
             running), copied, watched.
  destruct wait as [err|status]; cbn [engine.exitCode].
  - split; [split; discriminate|]. intros err' _. reflexivity.
  - split; [|intros err H; discriminate].
    destruct (Z.eqb_spec status 0) as [->|Hs].
    + split; reflexivity.
    + split; [discriminate|]. intros H. injection H as H. contradiction.
Qed.

End ExitCode.

Lemma one_shot_wait_witness :
  let wait : error + Z := inl (New "connection lost") in
  let w := cmd.sqlWorld None (engine.exitCode wait) in
  cmd.readQuery w "SELECT 1" = inr "SELECT 1"
  /\ "SELECT 1" <> ""
  /\ cmd.exit w = engine.exitCode wait
  /\ (cmd.Execute w "SELECT 1" [] = None <-> wait = inr 0%Z)
  /\ (forall err, wait = inl err ->
        cmd.Execute w "SELECT 1" [] =
        Some (New "MySQL exited with status 1")).
Proof.
  intros wait w.
  assert (H : "SELECT 1" <> "") by discriminate.
  split; [reflexivity|]. split; [exact H|]. split; [reflexivity|].
  exact (one_shot_wait w "SELECT 1" "SELECT 1" wait eq_refl eq_refl eq_refl
           eq_refl H eq_refl eq_refl eq_refl).
Defined.

(** ** Reading the config file *)
Section ConfigRead.

Import config.

Variable Config : Type.
Variable F : Files Config.

(** X22.  [Read] returns nil in two cases only: no path was given, the home
    directory is known and the default file in it does not exist, and then
    the configuration is left as it was; or the file, the one given or the
    default one, was read and its content unmarshalled without error, and
    then the configuration is what the unmarshalling left.  With a path
    given, neither the home directory nor the existence of the file is
    asked for. *)
Theorem Read_nil (configFile : string) (File File' : Config) :
  Read F configFile File = (None, File') ->
  (configFile = ""
   /\ File' = File
   /\ exists home, homedir F = inr home
                   /\ notExist F (defaultPath F home) = true)
  \/ exists path content,
       ReadFile F path = inr content
       /\ UnmarshalStrict F content File = (None, File')
       /\ ((configFile <> "" /\ path = configFile)
           \/ (configFile = ""
               /\ exists home, homedir F = inr home
                               /\ path = defaultPath F home
                               /\ notExist F path = false)).
Proof.
  assert (Hat : forall path,
            readAt F path File = (None, File') ->
            exists content,
              ReadFile F path = inr content
              /\ UnmarshalStrict F content File = (None, File')).
  { intros path. unfold readAt.
    destruct (ReadFile F path) as [err|content]; [discriminate|].
    destruct (UnmarshalStrict F content File) as [[err|] File0] eqn:Hu;
      [discriminate|].
    intros H. injection H as <-. exists content. now split. }
  unfold Read. destruct (String.eqb_spec configFile "") as [->|Hne].
  - destruct (homedir F) as [err|home] eqn:Hh; [discriminate|].
    destruct (notExist F (defaultPath F home)) eqn:Hn.
    + intros H. injection H as <-. left. repeat split. now exists home.
    + intros H. destruct (Hat _ H) as (content & Hr & Hu).
      right. exists (defaultPath F home), content.
      split; [exact Hr|]. split; [exact Hu|]. right. split; [reflexivity|].
      exists home. auto.
  - intros H. destruct (Hat _ H) as (content & Hr & Hu).
    right. exists configFile, content. auto.
Qed.

End ConfigRead.

Lemma Read_nil_witness :
  let F := config.mkFiles nat (inr "/home/dev")
             (fun home => home ++ "/.srcd/config.yml")
             (fun _ => true) (fun _ => inl (New "no such file"))
             (fun _ c => (None, c)) in
  config.Read F "" 7%nat = (None, 7%nat)
  /\ (("" = "" /\ 7%nat = 7%nat
       /\ exists home, config.homedir F = inr home
                       /\ config.notExist F (config.defaultPath F home)
                          = true)
      \/ exists path content,
           config.ReadFile F path = inr content
           /\ config.UnmarshalStrict F content 7%nat = (None, 7%nat)
           /\ (("" <> "" /\ path = "")
               \/ ("" = ""
                   /\ exists home, config.homedir F = inr home
                                   /\ path = config.defaultPath F home
                                   /\ config.notExist F path = false))).
Proof.
  intros F. split; [reflexivity|].
  exact (Read_nil nat F "" 7%nat 7%nat eq_refl).
Defined.

(** ** Starting a container that is not running *)
Section StartOnce.

Import engine.

Variable D : Daemon.
Variable name : string.

Lemma Info_calls (h : list call) :
  snd (Info D name h) = (h ++ [GetClientCall])%list
  \/ snd (Info D name h) =
     (h ++ [GetClientCall; ContainerListCall name])%list.
Proof.
  unfold Info, andThen, GetClient, ask, pure.
  destruct (getClient D h); [now left|]. right.
  destruct (containerList D _ name); cbn [snd]; now rewrite <- app_assoc.
Qed.

Lemma IsRunning_calls (image : string) (h : list call) :
  snd (IsRunning D name image h) = snd (Info D name h).
Proof.
  unfold IsRunning, andThen, pure.
  destruct (Info D name h) as [[c| |err|] h1]; try reflexivity.
  destruct (negb (State c =? "running")%string); [reflexivity|].
  destruct (image =? "")%string; [reflexivity|].
  destruct (SplitImageID (Image c)), (SplitImageID image). reflexivity.
Qed.

Lemma Info_no_start (h : list call) :
  ~ In StartCall h -> ~ In StartCall (snd (Info D name h)).
Proof.
  intros Hh Hin. destruct (Info_calls h) as [H|H]; rewrite H in Hin;
    apply in_app_or in Hin as [Hin|Hin]; try (now apply Hh);
    cbn in Hin; intuition discriminate.
Qed.

(** X23.  [InfoOrStart] runs the start function exactly when [IsRunning]
    reports, without error, that the container is not running: a container
    that runs is looked up and not started again, and after an error of the
    lookup nothing is started. *)
Theorem InfoOrStart_starts (f : list call -> option error)
    (h : list call) :
  ~ In StartCall h ->
  (In StartCall (snd (InfoOrStart D name (ask StartCall f) h))
   <-> fst (IsRunning D name "" h) = Returns (false, None)).
Proof.
  intros Hh. unfold InfoOrStart, andThen.
  pose proof (IsRunning_calls "" h) as Hc.
  pose proof (Info_no_start h Hh) as Hn. rewrite <- Hc in Hn.
  destruct (IsRunning D name "" h) as [[[running [err|]]|] h1];
    cbn [fst snd] in *.
  - split; [intros H; destruct (Hn H)|discriminate].
  - destruct running.
    + split; [|discriminate]. intros H.
      destruct (Info_no_start h1 Hn H).
    + split; [reflexivity|]. intros _. unfold ask at 1.
      assert (Hs : In StartCall (h1 ++ [StartCall])%list)
        by (apply in_or_app; right; now left).
      destruct (f h1); cbn [pure snd]; [exact Hs|].
      destruct (Info_calls (h1 ++ [StartCall])%list) as [H|H];
        rewrite H; apply in_or_app; now left.
  - split; [intros H; destruct (Hn H)|discriminate].
Qed.

End StartOnce.

Lemma InfoOrStart_starts_witness :
  let D := engine.quietDaemon []
             [engine.mkContainer "1f" ["/srcd-cli-daemon"] "srcd/cli-daemon"
                "exited"]
             (engine.mkHostInfo "linux" "") in
  ~ In engine.StartCall []
  /\ fst (engine.IsRunning D "srcd-cli-daemon" "" []) =
     engine.Returns (false, None)
  /\ (In engine.StartCall
        (snd (engine.InfoOrStart D "srcd-cli-daemon"
                (engine.ask engine.StartCall (fun _ => None)) []))
      <-> fst (engine.IsRunning D "srcd-cli-daemon" "" []) =
          engine.Returns (false, None)).
Proof.
  intros D.
  assert (H : ~ In engine.StartCall []) by (intros []).
  split; [exact H|]. split; [reflexivity|].
  exact (InfoOrStart_starts D "srcd-cli-daemon" (fun _ => None) [] H).
Defined.
